(** * Medical Deep-Research Chat System: the client, embedded and verified

    A shallow embedding of the TypeScript front end:
    - [types/index.ts]          the data model ([Source], [ChatMessage], [ChatResponse]);
    - [services/api.ts]         [chatService.sendMessage] and [WebSocketService];
    - [hooks/useChat.ts]        the conversation state and its handlers;
    - [components/ChatInterface.tsx], [App.tsx]   the submit guards;
    - [components/ChatMessage.tsx], [App.tsx]     the rendering of sources;
    - [components/FileUpload.tsx]                 the drop handler.

    Conventions.  A JavaScript string is its sequence of UTF-16 code units
    ([list N]).  React state is passed explicitly; everything a handler does
    to the outside world is recorded, in order, in a list of [Effect]s.
    Message objects live in a store and the [messages] array holds
    references to them, because the handlers of [useChat] copy the array and
    then assign to fields of the object the last reference points to.
    [Date.now], [new Date] and [Math.random] are read from an environment
    record. *)

From stdpp Require Import base list strings.
From Stdlib Require Import NArith ZArith Lia.

Open Scope N_scope.
Open Scope nat_scope.

(* ===================================================================== *)
(** ** JavaScript strings                                                 *)
(* ===================================================================== *)

Module JsString.

(** A string value: UTF-16 code units. *)
Abbreviation t := (list N) (only parsing).

(** A literal of the source text (all literals used are ASCII). *)
Definition lit (s : string) : t :=
  Ascii.N_of_ascii <$> String.list_ascii_of_string s.

(** ECMAScript [WhiteSpace]: TAB, VT, FF, SP, NBSP, ZWNBSP and the
    code points of category Zs. *)
Definition isWhiteSpace (c : N) : bool :=
  (c =? 0x0009)%N || (c =? 0x000B)%N || (c =? 0x000C)%N || (c =? 0x0020)%N
  || (c =? 0x00A0)%N || (c =? 0x1680)%N
  || ((0x2000 <=? c)%N && (c <=? 0x200A)%N)
  || (c =? 0x202F)%N || (c =? 0x205F)%N || (c =? 0x3000)%N
  || (c =? 0xFEFF)%N.

(** ECMAScript [LineTerminator]: LF, CR, LS, PS. *)
Definition isLineTerminator (c : N) : bool :=
  (c =? 0x000A)%N || (c =? 0x000D)%N || (c =? 0x2028)%N || (c =? 0x2029)%N.

(** What [String.prototype.trim] strips. *)
Definition isStrippable (c : N) : bool :=
  isWhiteSpace c || isLineTerminator c.

Fixpoint trimStart (s : t) : t :=
  match s with
  | [] => []
  | c :: s' => if isStrippable c then trimStart s' else s
  end.

Definition trimEnd (s : t) : t := reverse (trimStart (reverse s)).

(** [s.trim()] *)
Definition trim (s : t) : t := trimEnd (trimStart s).

(** [ToBoolean] on a string: the empty string is the only falsy one. *)
Definition truthy (s : t) : bool :=
  match s with [] => false | _ :: _ => true end.

(** [a === b] on strings. *)
Definition eqb (a b : t) : bool := bool_decide (a = b).

(** Empty, or nothing but white space and line terminators. *)
Definition blank (s : t) : Prop :=
  Forall (fun c => isStrippable c = true) s.

End JsString.

(** [ToBoolean] on an optional boolean field ([undefined] is falsy). *)
Definition truthy_flag (b : option bool) : bool := default false b.

(* ===================================================================== *)
(** ** types/index.ts                                                     *)
(* ===================================================================== *)

Inductive SourceType := web | document.

Module Source.
Record t := mk {
  title : JsString.t;
  url : JsString.t;
  domain : JsString.t;
  type : SourceType;
  snippet : option JsString.t
}.
End Source.

Module ChatMessage.
Record t := mk {
  id : JsString.t;
  message : JsString.t;
  response : option JsString.t;
  sources : option (list Source.t);
  timestamp : Z;
  isUser : bool;
  isLoading : option bool
}.
End ChatMessage.

Module ChatResponse.
Record t := mk {
  response : JsString.t;
  sources : list Source.t;
  session_id : JsString.t;
  timestamp : JsString.t
}.
End ChatResponse.

(* ===================================================================== *)
(** ** Values put on the wire                                             *)
(* ===================================================================== *)

(** The object literals the client builds and the values it reads back. *)
#[local] Unset Elimination Schemes.
Inductive JsValue :=
| JsUndefined
| JsBool (b : bool)
| JsString (s : JsString.t)
| JsArray (items : list JsValue)
| JsObject (fields : list (string * JsValue)).
#[local] Set Elimination Schemes.

(** [Object.keys] of an object literal, in the order written. *)
Definition keys (v : JsValue) : list string :=
  match v with
  | JsObject fields => fst <$> fields
  | _ => []
  end.

(** [v.k] *)
Fixpoint assoc (k : string) (fields : list (string * JsValue)) : JsValue :=
  match fields with
  | [] => JsUndefined
  | (k', v) :: rest => if bool_decide (k = k') then v else assoc k rest
  end.

Definition get (k : string) (v : JsValue) : JsValue :=
  match v with
  | JsObject fields => assoc k fields
  | _ => JsUndefined
  end.

Definition optString (s : option JsString.t) : JsValue :=
  match s with Some s => JsString s | None => JsUndefined end.

Definition ofSourceType (ty : SourceType) : JsValue :=
  JsString (JsString.lit match ty with web => "web" | document => "document" end).

(** The members of [interface Source], as declared. *)
Definition ofSource (s : Source.t) : JsValue :=
  JsObject [ ("title", JsString (Source.title s));
             ("url", JsString (Source.url s));
             ("domain", JsString (Source.domain s));
             ("type", ofSourceType (Source.type s));
             ("snippet", optString (Source.snippet s)) ].

(** The members of [interface ChatResponse], as declared. *)
Definition ofChatResponse (r : ChatResponse.t) : JsValue :=
  JsObject [ ("response", JsString (ChatResponse.response r));
             ("sources", JsArray (ofSource <$> ChatResponse.sources r));
             ("session_id", JsString (ChatResponse.session_id r));
             ("timestamp", JsString (ChatResponse.timestamp r)) ].

(** Everything a handler does to the outside world. *)
Inductive Effect :=
| Post (path : string) (body : JsValue)      (* api.post(path, body)            *)
| WsSend (payload : JsValue)                 (* ws.send(JSON.stringify(payload)) *)
| Console (line : string)                    (* console.log / console.error     *)
| PreventDefault.                            (* e.preventDefault()              *)

(** Effects that reach the server. *)
Definition isTransport (e : Effect) : bool :=
  match e with
  | Post _ _ | WsSend _ => true
  | Console _ | PreventDefault => false
  end.

(* ===================================================================== *)
(** ** services/api.ts: chatService                                       *)
(* ===================================================================== *)

Module chatService.

(** What [api.post] settles to: a response carrying [data], or a
    rejection (network error, time-out, non-2xx status). *)
Inductive Settled :=
| Fulfilled (data : ChatResponse.t)
| Rejected.

(** The body literal of [api.post('/api/chat', {...})].  The two flags
    default to [true] when the caller leaves them out. *)
Definition body (message : JsString.t) (sessionId : option JsString.t)
    (includeWebSearch includeLocalSearch : option bool) : JsValue :=
  JsObject [ ("message", JsString message);
             ("session_id", optString sessionId);
             ("include_web_search", JsBool (default true includeWebSearch));
             ("include_local_search", JsBool (default true includeLocalSearch)) ].

(** [chatService.sendMessage]: what it issues before its [await], and
    what the call yields once the [post] has settled: [response.data],
    or nothing when the [post] rejected (the rejection propagates). *)
Definition sendMessage (message : JsString.t) (sessionId : option JsString.t)
    (includeWebSearch includeLocalSearch : option bool)
  : list Effect * (Settled -> option ChatResponse.t) :=
  ([Post "/api/chat" (body message sessionId includeWebSearch includeLocalSearch)],
   fun response =>
     match response with
     | Fulfilled data => Some data
     | Rejected => None
     end).

End chatService.

(* ===================================================================== *)
(** ** services/api.ts: WebSocketService                                  *)
(* ===================================================================== *)

Module WebSocketService.

Inductive ReadyState := CONNECTING | OPEN | CLOSING | CLOSED.

#[global] Instance ReadyState_eq_dec : EqDecision ReadyState.
Proof. solve_decision. Defined.

(** The service object.  [clientId] is the constructor's parameter
    property.  Every [new WebSocket] that succeeds adds a socket to
    [sockets]; [ws] is the field [this.ws], a reference to one of them or
    [null].  A socket keeps its handlers, and so keeps reporting to this
    object, also after [this.ws] has moved on. *)
Record t := mk {
  clientId : JsString.t;
  sockets : list ReadyState;
  ws : option nat;
  reconnectAttempts : nat
}.

Definition maxReconnectAttempts : nat := 5.
Definition reconnectInterval : nat := 3000.

(** [new WebSocketService(clientId)] *)
Definition create (clientId : JsString.t) : t := mk clientId [] None 0.

(** Whether [new WebSocket(wsUrl)] constructs a socket, for
    [wsUrl = `ws://localhost:2000/ws/${clientId}`].  The constructor throws
    a [SyntaxError] when the URL does not parse or has a fragment; scheme,
    host and port are fixed here and a path always parses, so it throws
    exactly when [clientId] holds a [#]. *)
Definition validUrl (clientId : JsString.t) : bool :=
  negb (bool_decide (0x23%N ∈ clientId)).

(** [connect]: the new state, and whether the [catch] ran (it logs and
    calls [onError]).  When the constructor succeeds, [this.ws] is the
    new socket, with its four handlers; when it throws, nothing is
    assigned and no socket exists. *)
Definition connect (s : t) : t * bool :=
  if validUrl (clientId s)
  then (mk (clientId s) (sockets s ++ [CONNECTING]) (Some (length (sockets s)))
           (reconnectAttempts s),
        false)
  else (s, true).

(** [ws.onopen] *)
Definition onopen (s : t) : t :=
  mk (clientId s) (sockets s) (ws s) 0.

(** [attemptReconnect]: the new state, and whether [setTimeout] was
    called with the reconnection. *)
Definition attemptReconnect (s : t) : t * bool :=
  if reconnectAttempts s <? maxReconnectAttempts
  then (mk (clientId s) (sockets s) (ws s) (S (reconnectAttempts s)), true)
  else (s, false).

(** [ws.onclose] *)
Definition onclose (s : t) : t * bool := attemptReconnect s.

(** [this.ws.readyState], when [this.ws] is not [null]. *)
Definition readyState (s : t) : option ReadyState :=
  i ← ws s; sockets s !! i.

Definition isConnected (s : t) : bool :=
  bool_decide (readyState s = Some OPEN).

Definition sendMessage (message : JsValue) (s : t) : list Effect :=
  if bool_decide (readyState s = Some OPEN)
  then [WsSend message]
  else [Console "WebSocket is not connected"].

(** [socket.close()]: a socket that is not yet closing starts to. *)
Definition close (r : ReadyState) : ReadyState :=
  match r with
  | CONNECTING | OPEN => CLOSING
  | CLOSING | CLOSED => r
  end.

Definition disconnect (s : t) : t :=
  match ws s with
  | Some i => mk (clientId s) (alter close i (sockets s)) None (reconnectAttempts s)
  | None => s
  end.

(** *** The service in the event loop

    What can happen to a service after [connect] has been called on it:
    the browser reports on one of its sockets, a reconnection timer
    fires, or the owner calls [disconnect]. *)
Inductive Event :=
| SocketOpen (i : nat)
| SocketMessage (i : nat)
| SocketError (i : nat)
| SocketClose (i : nat)
| TimerFires
| Disconnect.

(** [timers]: reconnections scheduled with [setTimeout] and not yet run;
    [reconnects]: how many of them have run, each one a call of [connect]
    the service made by itself. *)
Record Loop := mkLoop {
  service : t;
  timers : nat;
  reconnects : nat
}.

(** After [new WebSocketService(clientId)] and the one [connect] of the
    hook. *)
Definition start (clientId : JsString.t) : Loop :=
  mkLoop (connect (create clientId)).1 0 0.

Definition setSocket (i : nat) (r : ReadyState) (s : t) : t :=
  mk (clientId s) (<[i := r]> (sockets s)) (ws s) (reconnectAttempts s).

(** One event; [None] when the browser cannot deliver it in this state
    (a socket opens once, from [CONNECTING]; it closes once; messages
    come from an open socket; a timer must be pending to fire). *)
Definition step (e : Event) (l : Loop) : option Loop :=
  let s := service l in
  match e with
  | SocketOpen i =>
      match sockets s !! i with
      | Some CONNECTING =>
          Some (mkLoop (onopen (setSocket i OPEN s)) (timers l) (reconnects l))
      | _ => None
      end
  | SocketMessage i =>
      match sockets s !! i with
      | Some OPEN => Some l
      | _ => None
      end
  | SocketError i =>
      match sockets s !! i with
      | Some _ => Some l
      | None => None
      end
  | SocketClose i =>
      match sockets s !! i with
      | Some CLOSED | None => None
      | Some _ =>
          let '(s', scheduled) := onclose (setSocket i CLOSED s) in
          Some (mkLoop s' (if scheduled then S (timers l) else timers l)
                       (reconnects l))
      end
  | TimerFires =>
      match timers l with
      | O => None
      | S pending => Some (mkLoop (connect s).1 pending (S (reconnects l)))
      end
  | Disconnect => Some (mkLoop (disconnect s) (timers l) (reconnects l))
  end.

Fixpoint run (evs : list Event) (l : Loop) : option Loop :=
  match evs with
  | [] => Some l
  | e :: evs' =>
      match step e l with
      | Some l' => run evs' l'
      | None => None
      end
  end.

Definition isOpenEvent (e : Event) : bool :=
  match e with SocketOpen _ => true | _ => false end.

(** The service has given up: the counter is at its bound, nothing is
    scheduled, and no socket is still trying to connect. *)
Definition givenUp (l : Loop) : Prop :=
  maxReconnectAttempts <= reconnectAttempts (service l)
  /\ timers l = 0
  /\ CONNECTING ∉ sockets (service l).

(** What is still to come without a new open: reconnections run,
    reconnections scheduled, and those the counter still allows. *)
Definition budget (l : Loop) : nat :=
  reconnects l + timers l + (maxReconnectAttempts - reconnectAttempts (service l)).

(** A socket that has not yet reported its close. *)
Definition live (r : ReadyState) : Prop := r ≠ CLOSED.

(** The counter stays within its bound; at most one reconnection is
    scheduled, and only when the counter has paid for it; at most one
    socket is not closed, and none while a reconnection is scheduled. *)
Record Inv (l : Loop) : Prop := mkInv {
  inv_bound : reconnectAttempts (service l) <= maxReconnectAttempts;
  inv_timers : timers l <= 1 ∧ timers l <= reconnectAttempts (service l);
  inv_one : ∀ i j ri rj,
      sockets (service l) !! i = Some ri → live ri →
      sockets (service l) !! j = Some rj → live rj → i = j;
  inv_idle : timers l = 1 → ∀ i r, sockets (service l) !! i = Some r → r = CLOSED
}.

(** One socket per call of [connect], and [this.ws] is [null] or the
    newest of them. *)
Definition newest (l : Loop) : Prop :=
  length (sockets (service l)) = S (reconnects l)
  ∧ (ws (service l) = None ∨ ws (service l) = Some (reconnects l)).

(** The service keeps the [clientId] it was constructed with. *)
Definition serves (id : JsString.t) (l : Loop) : Prop := clientId (service l) = id.

End WebSocketService.

(* ===================================================================== *)
(** ** hooks/useChat.ts                                                   *)
(* ===================================================================== *)

Module useChat.

(** The state of the hook.  [store] holds the message objects; the
    array [messages] holds references into it. *)
Record State := mk {
  store : list ChatMessage.t;
  messages : list nat;
  isLoading : bool;
  sessionId : JsString.t;
  wsService : option WebSocketService.t
}.

(** What one call of [sendMessage] reads from the clock and from
    [Math.random]: the rendered [Date.now()], the random suffix and the
    [new Date()] of each of the two messages. *)
Record Env := mkEnv {
  userStamp : JsString.t;
  userSuffix : JsString.t;
  userDate : Z;
  aiStamp : JsString.t;
  aiSuffix : JsString.t;
  aiDate : Z
}.

(** The array as a component reads it: each reference followed. *)
Definition snapshot (st : State) : list (option ChatMessage.t) :=
  (fun r => store st !! r) <$> messages st.

(** The array holds each object once, and every reference of it points
    into the store. *)
Definition wf (st : State) : Prop :=
  NoDup (messages st) ∧ ∀ r, r ∈ messages st → r < length (store st).

Definition init : State := mk [] [] false [] None.

(** *** Assignments *)

Definition setMessages (arr : list nat) (st : State) : State :=
  mk (store st) arr (isLoading st) (sessionId st) (wsService st).

Definition setIsLoading (b : bool) (st : State) : State :=
  mk (store st) (messages st) b (sessionId st) (wsService st).

Definition setStore (h : list ChatMessage.t) (st : State) : State :=
  mk h (messages st) (isLoading st) (sessionId st) (wsService st).

(** [new] object: stored at the end, its reference returned. *)
Definition alloc (m : ChatMessage.t) (st : State) : nat * State :=
  (length (store st), setStore (store st ++ [m]) st).

Definition assign_isLoading (b : bool) (m : ChatMessage.t) : ChatMessage.t :=
  ChatMessage.mk (ChatMessage.id m) (ChatMessage.message m)
    (ChatMessage.response m) (ChatMessage.sources m)
    (ChatMessage.timestamp m) (ChatMessage.isUser m) (Some b).

Definition assign_response (r : JsString.t) (m : ChatMessage.t) : ChatMessage.t :=
  ChatMessage.mk (ChatMessage.id m) (ChatMessage.message m)
    (Some r) (ChatMessage.sources m)
    (ChatMessage.timestamp m) (ChatMessage.isUser m) (ChatMessage.isLoading m).

Definition assign_sources (s : list Source.t) (m : ChatMessage.t) : ChatMessage.t :=
  ChatMessage.mk (ChatMessage.id m) (ChatMessage.message m)
    (ChatMessage.response m) (Some s)
    (ChatMessage.timestamp m) (ChatMessage.isUser m) (ChatMessage.isLoading m).

(** [obj.field = v] on the object behind reference [r]. *)
Definition mutate (f : ChatMessage.t -> ChatMessage.t) (r : nat) (st : State) : State :=
  setStore (alter f r (store st)) st.

(** [lastMessage && lastMessage.isLoading], for
    [lastMessage = updated[updated.length - 1]]: the reference, when
    there is a last element and its object is loading. *)
Definition loadingLast (updated : list nat) (st : State) : option nat :=
  match last updated with
  | Some r =>
      match store st !! r with
      | Some lastMessage =>
          if truthy_flag (ChatMessage.isLoading lastMessage) then Some r else None
      | None => None
      end
  | None => None
  end.

Definition errorText : JsString.t :=
  JsString.lit "Sorry, I encountered an error while processing your request. Please try again.".

(** *** The WebSocket callbacks (lines 23-48) *)

(** A parsed channel message: its [type], and its [data], which the
    handler reads as a [ChatResponse]. *)
Record Incoming := mkIncoming {
  type : JsString.t;
  data : ChatResponse.t
}.

(** The [setMessages] updater and [setIsLoading(false)] of the
    ['response'] branch of the channel handler (lines 28-41). *)
Definition onSocketResponse (response : ChatResponse.t) (st : State) : State :=
  let updated := messages st in
  let st :=
    match loadingLast updated st with
    | Some lastMessage =>
        let st := mutate (assign_isLoading false) lastMessage st in
        let st := mutate (assign_response (ChatResponse.response response)) lastMessage st in
        mutate (assign_sources (ChatResponse.sources response)) lastMessage st
    | None => st
    end in
  let st := setMessages updated st in
  setIsLoading false st.

Definition onMessage (data : Incoming) (st : State) : State * list Effect :=
  (if JsString.eqb (type data) (JsString.lit "response")
   then onSocketResponse (useChat.data data) st
   else st,
   [Console "WebSocket message received:"]).

Definition onError (st : State) : State * list Effect :=
  (setIsLoading false st, [Console "WebSocket error:"]).

(** *** sendMessage (lines 56-130) *)

(** The payload handed to [wsService.sendMessage] (lines 84-89). *)
Definition chatFrame (message : JsString.t) (includeWebSearch includeLocalSearch : bool)
  : JsValue :=
  JsObject [ ("type", JsString (JsString.lit "chat"));
             ("message", JsString message);
             ("include_web_search", JsBool includeWebSearch);
             ("include_local_search", JsBool includeLocalSearch) ].

(** Where a call stands when it gives control back: it has returned, or
    it waits at [await chatService.sendMessage(...)] for the answer. *)
Inductive Status :=
| Returned
| Awaiting (k : chatService.Settled -> option ChatResponse.t).

(** The [setMessages] updater and [setIsLoading(false)] after the
    [await] (lines 99-111). *)
Definition onRestResponse (response : ChatResponse.t) (st : State) : State :=
  let updated := messages st in
  let st :=
    match loadingLast updated st with
    | Some lastMessage =>
        let st := mutate (assign_isLoading false) lastMessage st in
        let st := mutate (assign_response (ChatResponse.response response)) lastMessage st in
        mutate (assign_sources (ChatResponse.sources response)) lastMessage st
    | None => st
    end in
  let st := setMessages updated st in
  setIsLoading false st.

(** The [catch] block (lines 113-129). *)
Definition onCaught (st : State) : State * list Effect :=
  let updated := messages st in
  let st :=
    match loadingLast updated st with
    | Some lastMessage =>
        let st := mutate (assign_isLoading false) lastMessage st in
        let st := mutate (assign_response errorText) lastMessage st in
        mutate (assign_sources []) lastMessage st
    | None => st
    end in
  let st := setMessages updated st in
  (setIsLoading false st, [Console "Error sending message:"]).

(** The object literal [userMessage] (lines 63-68). *)
Definition userMessage (env : Env) (message : JsString.t) : ChatMessage.t :=
  ChatMessage.mk
    (JsString.lit "msg_" ++ userStamp env ++ JsString.lit "_" ++ userSuffix env)
    (JsString.trim message) None None (userDate env) true None.

(** The object literal [aiMessage] (lines 70-76). *)
Definition aiMessage (env : Env) : ChatMessage.t :=
  ChatMessage.mk
    (JsString.lit "ai_" ++ aiStamp env ++ JsString.lit "_" ++ aiSuffix env)
    [] None None (aiDate env) false (Some true).

(** [sendMessage] up to the point where it returns or reaches its
    [await] (lines 56-97). *)
Definition sendMessage (env : Env) (message : JsString.t)
    (includeWebSearch includeLocalSearch : option bool) (st : State)
  : State * list Effect * Status :=
  let includeWebSearch := default true includeWebSearch in
  let includeLocalSearch := default true includeLocalSearch in
  if negb (JsString.truthy (JsString.trim message)) then (st, [], Returned)
  else
    let '(userMessage, st) := alloc (userMessage env message) st in
    let '(aiMessage, st) := alloc (aiMessage env) st in
    let st := setMessages (messages st ++ [userMessage; aiMessage]) st in
    let st := setIsLoading true st in
    let fallback :=
      let '(issued, k) :=
        chatService.sendMessage (JsString.trim message) (Some (sessionId st))
          (Some includeWebSearch) (Some includeLocalSearch) in
      (st, issued, Awaiting k) in
    match wsService st with
    | Some service =>
        if WebSocketService.isConnected service
        then (st,
              WebSocketService.sendMessage
                (chatFrame (JsString.trim message) includeWebSearch includeLocalSearch)
                service,
              Returned)
        else fallback
    | None => fallback
    end.

(** [sendMessage] from its [await] on (lines 98-129): the call yielded
    a response, or threw into the [catch]. *)
Definition resume (yielded : option ChatResponse.t) (st : State)
  : State * list Effect :=
  match yielded with
  | Some response => (onRestResponse response st, [])
  | None => onCaught st
  end.

(** A whole call during which nothing else happens: [answer] is what
    the [post] settles to, should the call make one. *)
Definition sendMessageThrough (answer : chatService.Settled) (env : Env)
    (message : JsString.t) (includeWebSearch includeLocalSearch : option bool)
    (st : State) : State * list Effect :=
  match sendMessage env message includeWebSearch includeLocalSearch st with
  | (st, issued, Returned) => (st, issued)
  | (st, issued, Awaiting k) =>
      let '(st, logged) := resume (k answer) st in
      (st, issued ++ logged)
  end.

Definition clearMessages (st : State) : State := setMessages [] st.

(** *** Vocabulary of the statements *)

(** [wsService && wsService.isConnected()] *)
Definition connected (st : State) : bool :=
  match wsService st with
  | Some service => WebSocketService.isConnected service
  | None => false
  end.

(** The state right after lines 78-79: the two new objects stored, their
    references appended, the flag set. *)
Definition accepted (env : Env) (message : JsString.t) (st : State) : State :=
  mk (store st ++ [userMessage env message; aiMessage env])
     (messages st ++ [length (store st); S (length (store st))])
     true (sessionId st) (wsService st).

(** A message object once it has been given an answer: not loading,
    with that text and those sources. *)
Definition settled (text : JsString.t) (srcs : list Source.t) (m : ChatMessage.t)
  : ChatMessage.t :=
  ChatMessage.mk (ChatMessage.id m) (ChatMessage.message m)
    (Some text) (Some srcs)
    (ChatMessage.timestamp m) (ChatMessage.isUser m) (Some false).

(** The update as the specification words it, on the list as it is
    read: when the last message is pending, it is marked not loading
    and receives the text and the sources; nothing else changes. *)
Definition settleLast (text : JsString.t) (srcs : list Source.t)
    (view : list (option ChatMessage.t)) : list (option ChatMessage.t) :=
  match last view with
  | Some (Some m) =>
      if truthy_flag (ChatMessage.isLoading m)
      then <[pred (length view) := Some (settled text srcs m)]> view
      else view
  | _ => view
  end.

(** The shape the three updaters share: the three assignments in one. *)
Definition settleWith (text : JsString.t) (srcs : list Source.t) (st : State) : State :=
  match loadingLast (messages st) st with
  | Some r => setIsLoading false (setStore (alter (settled text srcs) r (store st)) st)
  | None => setIsLoading false st
  end.

(** *** The hook over time *)

(** [setSessionId(id)] of the first effect (lines 12-15). *)
Definition setSessionId (id : JsString.t) (st : State) : State :=
  mk (store st) (messages st) (isLoading st) id (wsService st).

(** [setWsService(ws)] of the second effect (lines 20-21); the service
    object is shared with the browser, so this also stands for whatever
    its sockets have done to it since. *)
Definition setWsService (service : option WebSocketService.t) (st : State) : State :=
  mk (store st) (messages st) (isLoading st) (sessionId st) service.

(** What can happen to a mounted hook. *)
Inductive Action :=
| Mount (id : JsString.t)
| Attach (service : option WebSocketService.t)
| Send (env : Env) (message : JsString.t) (includeWebSearch includeLocalSearch : option bool)
| Settle (yielded : option ChatResponse.t)
| Receive (incoming : Incoming)
| Fail
| Clear.

Definition act (st : State) (a : Action) : State :=
  match a with
  | Mount id => setSessionId id st
  | Attach service => setWsService service st
  | Send env message includeWebSearch includeLocalSearch =>
      (sendMessage env message includeWebSearch includeLocalSearch st).1.1
  | Settle yielded => (resume yielded st).1
  | Receive incoming => (onMessage incoming st).1
  | Fail => (onError st).1
  | Clear => clearMessages st
  end.

Definition after (actions : list Action) (st : State) : State :=
  foldl act st actions.

(** The list reads as question and answer, in turn. *)
Fixpoint paired (view : list (option ChatMessage.t)) : Prop :=
  match view with
  | [] => True
  | Some user :: Some reply :: rest =>
      ChatMessage.isUser user = true ∧ ChatMessage.isUser reply = false ∧ paired rest
  | _ => False
  end.

End useChat.

(* ===================================================================== *)
(** ** components/ChatInterface.tsx                                       *)
(* ===================================================================== *)

Module ChatInterface.

Record Settings := mkSettings {
  includeWebSearch : bool;
  includeLocalSearch : bool
}.

Record State := mk {
  input : JsString.t;
  showSettings : bool;
  showUpload : bool;
  settings : Settings;
  chat : useChat.State
}.

Definition setInput (s : JsString.t) (st : State) : State :=
  mk s (showSettings st) (showUpload st) (settings st) (chat st).

Definition setChat (c : useChat.State) (st : State) : State :=
  mk (input st) (showSettings st) (showUpload st) (settings st) c.

(** [handleSubmit] (lines 35-47), up to where it returns or waits. *)
Definition handleSubmit (env : useChat.Env) (st : State)
  : State * list Effect * useChat.Status :=
  if negb (JsString.truthy (JsString.trim (input st))) || useChat.isLoading (chat st)
  then (st, [PreventDefault], useChat.Returned)
  else
    let message := JsString.trim (input st) in
    let st := setInput [] st in
    let '(c, issued, status) :=
      useChat.sendMessage env message
        (Some (includeWebSearch (settings st)))
        (Some (includeLocalSearch (settings st))) (chat st) in
    (setChat c st, PreventDefault :: issued, status).

End ChatInterface.

(* ===================================================================== *)
(** ** App.tsx                                                            *)
(* ===================================================================== *)

Module App.

Record Message := mkMessage {
  id : Z;
  text : JsString.t;
  isUser : bool;
  sources : option (list Source.t)
}.

Record State := mk {
  messages : list Message;
  input : JsString.t;
  loading : bool
}.

Definition requestBody (input : JsString.t) : JsValue :=
  JsObject [ ("message", JsString input);
             ("include_web_search", JsBool true);
             ("include_local_search", JsBool true) ].

(** [sendMessage] (lines 17-35) up to its [await]; [now] is
    [Date.now()].  The result tells whether the call waits for the
    [post]. *)
Definition sendMessage (now : Z) (st : State) : State * list Effect * bool :=
  if negb (JsString.truthy (JsString.trim (input st))) || loading st
  then (st, [], false)
  else
    let userMessage := mkMessage now (input st) true None in
    (mk (messages st ++ [userMessage]) [] true,
     [Post "/api/chat" (requestBody (input st))],
     true).

Definition errorText : JsString.t :=
  JsString.lit "Sorry, I encountered an error. Please try again.".

(** [sendMessage] from its [await] on (lines 36-55). *)
Definition resume (now : Z) (response : chatService.Settled) (st : State)
  : State * list Effect :=
  match response with
  | chatService.Fulfilled data =>
      let aiMessage :=
        mkMessage (now + 1) (ChatResponse.response data) false
                  (Some (ChatResponse.sources data)) in
      (mk (messages st ++ [aiMessage]) (input st) false, [])
  | chatService.Rejected =>
      let errorMessage := mkMessage (now + 1) errorText false None in
      (mk (messages st ++ [errorMessage]) (input st) false, [Console "Error:"])
  end.

(** The source links under a message (lines 82-97): [None] when the
    block is not rendered, else each link's label number and source. *)
Definition renderSources (message : Message) : option (list (nat * Source.t)) :=
  match sources message with
  | Some sources =>
      if 0 <? length sources
      then Some (imap (fun index source => (index + 1, source)) sources)
      else None
  | None => None
  end.

End App.

(* ===================================================================== *)
(** ** components/ChatMessage.tsx                                         *)
(* ===================================================================== *)

Module ChatMessageView.

(** [<SourceCard source={source} index={...} />] *)
Record SourceCard := mkCard {
  index : nat;
  source : Source.t
}.

Inductive Rendered :=
| UserBubble (text : JsString.t)
| Thinking
| Answer (markdown : JsString.t) (sources : option (list SourceCard)).

(** [a || b] on an optional string. *)
Definition orElse (a : option JsString.t) (b : JsString.t) : JsString.t :=
  match a with
  | Some s => if JsString.truthy s then s else b
  | None => b
  end.

(** The "Sources:" block (lines 41-50). *)
Definition renderSources (message : ChatMessage.t) : option (list SourceCard) :=
  match ChatMessage.sources message with
  | Some sources =>
      if 0 <? length sources
      then Some (imap (fun index source => mkCard (index + 1) source) sources)
      else None
  | None => None
  end.

Definition render (message : ChatMessage.t) : Rendered :=
  if ChatMessage.isUser message then UserBubble (ChatMessage.message message)
  else if truthy_flag (ChatMessage.isLoading message) then Thinking
  else Answer (orElse (ChatMessage.response message)
                      (JsString.lit "No response available"))
              (renderSources message).

(** The cards of a rendered message, none when there is no block. *)
Definition cards (r : Rendered) : list SourceCard :=
  match r with
  | Answer _ (Some cs) => cs
  | _ => []
  end.

(** *** SourceCard (lines 67-119) *)

Inductive Icon := DocumentTextIcon | GlobeAltIcon.

Definition getSourceIcon (source : Source.t) : Icon :=
  match Source.type source with
  | document => DocumentTextIcon
  | web => GlobeAltIcon
  end.

(** [s.startsWith(sub)] *)
Fixpoint startsWith (s sub : JsString.t) : bool :=
  match sub, s with
  | [], _ => true
  | _ :: _, [] => false
  | c :: sub', d :: s' => (c =? d)%N && startsWith s' sub'
  end.

(** [s.includes(sub)]: [sub] occurs in [s], at some position. *)
Fixpoint includes (s sub : JsString.t) : bool :=
  startsWith s sub ||
  match s with
  | [] => false
  | _ :: s' => includes s' sub
  end.

Definition medicalDomains : list JsString.t :=
  JsString.lit <$> ["pubmed"; "who.int"; "nih.gov"; "mayoclinic.org"; "nature.com"].

Definition getDomainColor (source : Source.t) : string :=
  let isMedical := existsb (fun domain => includes (Source.domain source) domain)
                           medicalDomains in
  if isMedical then "text-green-600" else "text-blue-600".

(** The external-link anchor is rendered for web sources only
    (lines 94-103). *)
Definition showsLink (source : Source.t) : bool :=
  match Source.type source with web => true | document => false end.

(** *** What reaches the screen (lines 11-119)

    [render] above is the element tree of [ChatMessage]; its
    [<SourceCard />] elements are rendered in turn by [SourceCard]. *)

(** A component imported by name from [@heroicons/react/24/outline]:
    [exports] tells which names the package exports.  A name it does not
    export is bound to [undefined], and rendering an element of it
    throws. *)
Definition element (exports : string -> bool) (name : string) : option string :=
  if exports name then Some name else None.

(** What the package exports, of the names this repository imports from
    it: all but [ExternalLinkIcon] (its icon of that shape is named
    [ArrowTopRightOnSquareIcon]). *)
Definition heroicons (name : string) : bool :=
  bool_decide (name ∈ [ "PaperAirplaneIcon"; "Cog6ToothIcon"; "DocumentArrowUpIcon";
                        "TrashIcon"; "DocumentTextIcon"; "GlobeAltIcon";
                        "CheckCircleIcon"; "XCircleIcon"; "ExclamationTriangleIcon" ]).

Definition iconName (icon : Icon) : string :=
  match icon with
  | DocumentTextIcon => "DocumentTextIcon"
  | GlobeAltIcon => "GlobeAltIcon"
  end.

(** A source card on the screen: the number in the badge, the icon, the
    domain and its colour class, the target of the link when there is
    one, the title, and the snippet when it is shown. *)
Record CardView := mkCardView {
  shownIndex : nat;
  shownIcon : string;
  domainClass : string;
  shownDomain : JsString.t;
  linkTo : option JsString.t;
  shownTitle : JsString.t;
  shownSnippet : option JsString.t
}.

(** [source.snippet && <p>...</p>] *)
Definition snippetShown (source : Source.t) : option JsString.t :=
  match Source.snippet source with
  | Some text => if JsString.truthy text then Some text else None
  | None => None
  end.

(** [SourceCard] (lines 67-119); [None] when rendering it throws. *)
Definition renderCard (exports : string -> bool) (card : SourceCard) : option CardView :=
  let source := ChatMessageView.source card in
  icon ← element exports (iconName (getSourceIcon source));
  link ← (if showsLink source
          then _ ← element exports "ExternalLinkIcon"; Some (Some (Source.url source))
          else Some None);
  Some (mkCardView (index card) icon (getDomainColor source) (Source.domain source)
                   link (Source.title source) (snippetShown source)).

Fixpoint renderCards (exports : string -> bool) (cards : list SourceCard)
  : option (list CardView) :=
  match cards with
  | [] => Some []
  | card :: rest =>
      view ← renderCard exports card;
      views ← renderCards exports rest;
      Some (view :: views)
  end.

Inductive Screen :=
| ShowUser (text : JsString.t)
| ShowThinking
| ShowAnswer (text : JsString.t) (sources : option (list CardView)).

(** [ChatMessage] as it reaches the screen; [None] when a component of
    the tree throws.  (The relative time under the text is left out.) *)
Definition display (exports : string -> bool) (message : ChatMessage.t) : option Screen :=
  match render message with
  | UserBubble text => Some (ShowUser text)
  | Thinking => Some ShowThinking
  | Answer text None => Some (ShowAnswer text None)
  | Answer text (Some cards) =>
      views ← renderCards exports cards;
      Some (ShowAnswer text (Some views))
  end.

(** The source cards on the screen, none when there is no block or
    nothing on the screen. *)
Definition shown (screen : option Screen) : list CardView :=
  match screen with
  | Some (ShowAnswer _ (Some views)) => views
  | _ => []
  end.

Definition isWeb (source : Source.t) : Prop := Source.type source = web.

End ChatMessageView.

(* ===================================================================== *)
(** ** components/FileUpload.tsx                                          *)
(* ===================================================================== *)

Module FileUpload.

Record File := mkFile {
  name : JsString.t;
  size : N
}.

Inductive UploadStatus := uploading | completed | error.

Record UploadProgress := mkProgress {
  filename : JsString.t;
  progress : N;
  status : UploadStatus;
  errorText : option JsString.t
}.

(** What the handler does besides updating [uploads]. *)
Inductive Action :=
| toast_error (text : JsString.t)
| toast_success (text : JsString.t)
| uploadFile (file : File)
| setTimeout_onUploadComplete (delay : nat)
| console_error (line : string).

(** How one call of [fileService.uploadFile] goes: the progress values
    it reports, then success, or a throw (with the [message] of the
    thrown value when that is an [Error]). *)
Inductive Outcome :=
| Succeeds
| Throws (message : option JsString.t).

Record Transfer := mkTransfer {
  reports : list N;
  outcome : Outcome
}.

Definition sizeLimit : N := 50 * 1024 * 1024.

(** [prev.map(upload => upload.filename === file.name ? f(upload) : upload)] *)
Definition mapNamed (name : JsString.t) (f : UploadProgress -> UploadProgress)
    (uploads : list UploadProgress) : list UploadProgress :=
  (fun upload => if JsString.eqb (filename upload) name then f upload else upload)
    <$> uploads.

Definition withProgress (p : N) (u : UploadProgress) : UploadProgress :=
  mkProgress (filename u) p (status u) (errorText u).

Definition asCompleted (u : UploadProgress) : UploadProgress :=
  mkProgress (filename u) 100 completed (errorText u).

Definition asError (text : JsString.t) (u : UploadProgress) : UploadProgress :=
  mkProgress (filename u) (progress u) error (Some text).

Definition tooLargeText (file : File) : JsString.t :=
  JsString.lit "File " ++ name file
    ++ JsString.lit " is too large. Maximum size is 50MB.".

(** One turn of the [for] loop of [onDrop] (lines 260-310). *)
Definition onFile (serve : File -> Transfer) (file : File)
    (acc : list UploadProgress * list Action) : list UploadProgress * list Action :=
  let '(uploads, done) := acc in
  if (sizeLimit <? size file)%N
  then (uploads, done ++ [toast_error (tooLargeText file)])
  else
    let uploads := uploads ++ [mkProgress (name file) 0 uploading None] in
    let transfer := serve file in
    let uploads :=
      foldl (fun uploads p => mapNamed (name file) (withProgress p) uploads)
            uploads (reports transfer) in
    match outcome transfer with
    | Succeeds =>
        (mapNamed (name file) asCompleted uploads,
         done ++ [ uploadFile file;
                   toast_success (name file ++ JsString.lit " uploaded successfully!");
                   setTimeout_onUploadComplete 1500 ])
    | Throws message =>
        (mapNamed (name file)
                  (asError (default (JsString.lit "Upload failed") message)) uploads,
         done ++ [ uploadFile file;
                   console_error "Upload error:";
                   toast_error (JsString.lit "Failed to upload " ++ name file) ])
    end.

(** [onDrop]: the files in order, each awaited before the next. *)
Definition onDrop (serve : File -> Transfer) (acceptedFiles : list File)
    (uploads : list UploadProgress) : list UploadProgress * list Action :=
  foldl (fun acc file => onFile serve file acc) (uploads, []) acceptedFiles.

Definition removeUpload (name : JsString.t) (uploads : list UploadProgress)
  : list UploadProgress :=
  filter (fun upload => filename upload ≠ name) uploads.

(** The files handed to the upload service, in order. *)
Definition uploaded (done : list Action) : list File :=
  omap (fun a => match a with uploadFile f => Some f | _ => None end) done.

(** The texts reported with [toast.error], in order. *)
Definition errorToasts (done : list Action) : list JsString.t :=
  omap (fun a => match a with toast_error t => Some t | _ => None end) done.

Definition oversized (file : File) : bool := (sizeLimit <? size file)%N.

(** The toasts among what the handler did. *)
Definition isToast (a : Action) : bool :=
  match a with
  | toast_error _ | toast_success _ => true
  | _ => false
  end.

(** The toasts shown, in order. *)
Definition toasts (done : list Action) : list Action :=
  filter (fun a => isToast a = true) done.

(** The toast a dropped file is answered with: the size error when it is
    over the limit, else what its upload ends in. *)
Definition toastFor (serve : File -> Transfer) (file : File) : Action :=
  if (50 * 1024 * 1024 <? size file)%N
  then toast_error (JsString.lit "File " ++ name file
                      ++ JsString.lit " is too large. Maximum size is 50MB.")
  else match outcome (serve file) with
       | Succeeds => toast_success (name file ++ JsString.lit " uploaded successfully!")
       | Throws _ => toast_error (JsString.lit "Failed to upload " ++ name file)
       end.

(** How an entry named after [file] ends when [file] was the last of that
    name to go through the loop (lines 283-287 and 299-307). *)
Definition finished (result : Outcome) (u : UploadProgress) : Prop :=
  match result with
  | Succeeds => status u = completed ∧ progress u = 100%N
  | Throws message =>
      status u = error
      ∧ errorText u = Some (default (JsString.lit "Upload failed") message)
  end.

End FileUpload.

(* ===================================================================== *)
(** ** Sample values *)

Module Sample.

Definition env : useChat.Env :=
  useChat.mkEnv (JsString.lit "1730000000000") (JsString.lit "k3j9x0q2a") 1730000000000
                (JsString.lit "1730000000001") (JsString.lit "p7m1c5z8d") 1730000000001.

Definition question : JsString.t :=
  JsString.lit "  What are the symptoms of long COVID? ".

(** Blanks, a tab, a line feed and a no-break space. *)
Definition spaces : JsString.t := [0x20; 0x09; 0x0A; 0xA0; 0x20]%N.

Definition who : Source.t :=
  Source.mk (JsString.lit "Post COVID-19 condition") (JsString.lit "https://www.who.int/x")
            (JsString.lit "who.int") web (Some (JsString.lit "Long COVID is ...")).

Definition notes : Source.t :=
  Source.mk (JsString.lit "clinic-notes.pdf") (JsString.lit "doc://17")
            (JsString.lit "local") document None.

Definition answer : ChatResponse.t :=
  ChatResponse.mk (JsString.lit "Fatigue and breathlessness [1][2].") [who; notes]
                  (JsString.lit "session_1") (JsString.lit "2024-10-27T03:33:20Z").

(** A fresh hook, no socket. *)
Definition idle : useChat.State :=
  useChat.mk [] [] false (JsString.lit "session_1") None.

(** The hook with an open socket. *)
Definition online : useChat.State :=
  useChat.mk [] [] false (JsString.lit "session_1")
    (Some (WebSocketService.mk (JsString.lit "session_1")
             [WebSocketService.OPEN] (Some 0) 0)).

(** The hook after one question has been sent and not yet answered. *)
Definition busy : useChat.State :=
  (useChat.sendMessage env question None None idle).1.1.

Definition ui (input : JsString.t) (chat : useChat.State) : ChatInterface.State :=
  ChatInterface.mk input false false (ChatInterface.mkSettings true true) chat.

Definition app (input : JsString.t) (loading : bool) : App.State :=
  App.mk [App.mkMessage 1730000000000 question true None] input loading.

Definition delivered : ChatMessage.t :=
  ChatMessage.mk (JsString.lit "ai_1") [] (Some (ChatResponse.response answer))
                 (Some [who; notes]) 1730000000001 false (Some false).

Definition big : FileUpload.File :=
  FileUpload.mkFile (JsString.lit "scan.pdf") 52428801.

Definition small : FileUpload.File :=
  FileUpload.mkFile (JsString.lit "notes.txt") 2048.

(** An answer whose sources are all documents. *)
Definition fromNotes : ChatMessage.t :=
  ChatMessage.mk (JsString.lit "ai_2") [] (Some (JsString.lit "See the notes [1][2]."))
                 (Some [notes; notes]) 1730000000002 false (Some false).

(** A second file with the name of [small]. *)
Definition flaky : FileUpload.File :=
  FileUpload.mkFile (JsString.lit "notes.txt") 4096.

Definition pubmed : Source.t :=
  Source.mk (JsString.lit "Long COVID review") (JsString.lit "https://pubmed.ncbi.nlm.nih.gov/1")
            (JsString.lit "pubmed.ncbi.nlm.nih.gov") web None.

End Sample.

(** Runs of the reconnection loop. *)
Module Trace.
Import WebSocketService.

(** A client id as the hook makes them. *)
Definition client : JsString.t := JsString.lit "session_1730000000000_k3j9x0q2a".

(** A client id whose URL the [WebSocket] constructor refuses. *)
Definition badClient : JsString.t := JsString.lit "a#b".

(** Four reconnections that fail, then the fifth close: the counter is at
    its bound and the fifth reconnection is scheduled. *)
Definition exhausting : list Event :=
  [ SocketClose 0; TimerFires; SocketClose 1; TimerFires; SocketClose 2; TimerFires;
    SocketClose 3; TimerFires; SocketClose 4 ].

(** The fifth reconnection runs and succeeds; the server then drops the
    connection, and the service reconnects once more. *)
Definition recovering : list Event :=
  [ TimerFires; SocketOpen 5; SocketClose 5; TimerFires ].

(** The fifth reconnection runs and fails like the others. *)
Definition failing : list Event := [ TimerFires; SocketClose 5 ].

(** Anything the browser may still report afterwards. *)
Definition afterwards : list Event :=
  [ SocketError 5; Disconnect; SocketError 0 ].

(** After [exhausting]: five sockets closed, the counter at 5, the fifth
    reconnection scheduled, four reconnections run. *)
Definition atBound : Loop :=
  mkLoop (mk client (replicate 5 CLOSED) (Some 4) 5) 1 4.

(** After [exhausting] and [recovering]: a seventh socket is connecting. *)
Definition again : Loop :=
  mkLoop (mk client (replicate 6 CLOSED ++ [CONNECTING]) (Some 6) 1) 0 6.

(** After [exhausting] and [failing]: all six sockets closed, nothing
    scheduled. *)
Definition exhausted : Loop :=
  mkLoop (mk client (replicate 6 CLOSED) (Some 5) 5) 0 5.

(** A server that accepts every connection and then drops it, [n] times
    over: the socket opens, closes, and the reconnection runs. *)
Fixpoint flapping (n : nat) : list Event :=
  match n with
  | 0 => []
  | S k => flapping k ++ [SocketOpen k; SocketClose k; TimerFires]
  end.

(** After [afterwards], from [exhausted]. *)
Definition silent : Loop :=
  mkLoop (mk client (replicate 6 CLOSED) None 5) 0 5.

End Trace.

(* ===================================================================== *)
(** * Properties                                                          *)
(* ===================================================================== *)

(** ** Trimming *)

Section Trim.
Import JsString.

Lemma trimStart_blank (s : JsString.t) : blank s → trimStart s = [].
Proof.
  induction 1 as [|c s Hc _ IH]; simpl; [done|].
  by rewrite Hc.
Qed.

Lemma trimStart_nil_blank (s : JsString.t) : trimStart s = [] → blank s.
Proof.
  induction s as [|c s IH]; simpl; [constructor|].
  destruct (isStrippable c) eqn:Hc.
  - intros H. constructor; [exact Hc | exact (IH H)].
  - discriminate.
Qed.

(** What [trimStart] leaves starts with a unit that stays. *)
Lemma trimStart_head (s : JsString.t) c rest :
  trimStart s = c :: rest → isStrippable c = false.
Proof.
  induction s as [|d s IH]; simpl; [done|].
  destruct (isStrippable d) eqn:Hd; [done|].
  by intros [= -> _].
Qed.

Lemma trimStart_fixed (s : JsString.t) c rest :
  s = c :: rest → isStrippable c = false → trimStart s = s.
Proof. intros -> Hc. simpl. by rewrite Hc. Qed.

Lemma trimEnd_nil_blank (s : JsString.t) : trimEnd s = [] → blank s.
Proof.
  unfold trimEnd. intros H.
  apply (f_equal reverse) in H. rewrite reverse_involutive in H.
  apply trimStart_nil_blank in H.
  unfold blank in *. rewrite <- (reverse_involutive s).
  by apply Forall_reverse.
Qed.

Lemma trim_blank (s : JsString.t) : blank s → trim s = [].
Proof. intros H. unfold trim. by rewrite (trimStart_blank s H). Qed.

Lemma trim_nil_blank (s : JsString.t) : trim s = [] → blank s.
Proof.
  unfold trim. intros H. apply trimEnd_nil_blank in H.
  destruct (trimStart s) as [|c rest] eqn:E.
  - by apply trimStart_nil_blank.
  - apply trimStart_head in E. inversion H; congruence.
Qed.

(** [!s.trim()] holds exactly for the blank strings. *)
Lemma falsy_trim_iff (s : JsString.t) : truthy (trim s) = false ↔ blank s.
Proof.
  split.
  - intros H. apply trim_nil_blank. by destruct (trim s).
  - intros H. by rewrite trim_blank.
Qed.

Lemma truthy_trim (s : JsString.t) : trim s ≠ [] → truthy (trim s) = true.
Proof. by destruct (trim s). Qed.

Lemma trimStart_idem (s : JsString.t) : trimStart (trimStart s) = trimStart s.
Proof.
  destruct (trimStart s) as [|c rest] eqn:E; [done|].
  eapply trimStart_fixed; [done|]. by eapply trimStart_head.
Qed.

Lemma trimStart_snoc (s : JsString.t) c :
  isStrippable c = false → trimStart (s ++ [c]) = trimStart s ++ [c].
Proof.
  intros Hc. induction s as [|d s IH]; simpl.
  - by rewrite Hc.
  - by destruct (isStrippable d).
Qed.

(** Trimming what is already trimmed changes nothing. *)
Lemma trim_idem (s : JsString.t) : trim (trim s) = trim s.
Proof.
  unfold trim, trimEnd.
  destruct (trimStart s) as [|c rest] eqn:E; [done|].
  pose proof (trimStart_head _ _ _ E) as Hc.
  rewrite reverse_cons, (trimStart_snoc _ _ Hc), reverse_snoc.
  rewrite (trimStart_fixed _ c _ eq_refl Hc).
  rewrite reverse_cons, reverse_involutive, (trimStart_snoc _ _ Hc).
  by rewrite trimStart_idem, reverse_snoc.
Qed.

End Trim.

(** ** The store of [useChat] *)

Section Store.
Import useChat.

Lemma three_assignments (text : JsString.t) (srcs : list Source.t) (r : nat) (st : State) :
  mutate (assign_sources srcs) r
    (mutate (assign_response text) r (mutate (assign_isLoading false) r st))
  = setStore (alter (settled text srcs) r (store st)) st.
Proof.
  unfold mutate, setStore; simpl. f_equal.
  rewrite !list_alter_alter_eq. apply list_alter_ext; [|done].
  by intros [].
Qed.

Lemma loadingLast_Some (st : State) (r : nat) :
  loadingLast (messages st) st = Some r ↔
  last (messages st) = Some r ∧
  ∃ m, store st !! r = Some m ∧ ChatMessage.isLoading m = Some true.
Proof.
  unfold loadingLast. split.
  - destruct (last (messages st)) as [r'|]; [|done].
    destruct (store st !! r') as [m|] eqn:Hm; [|done].
    destruct (ChatMessage.isLoading m) as [[]|] eqn:Hl; simpl; try done.
    intros [= <-]. eauto.
  - intros [-> (m & -> & ->)]. done.
Qed.

Lemma onSocketResponse_settleWith (response : ChatResponse.t) (st : State) :
  onSocketResponse response st
  = settleWith (ChatResponse.response response) (ChatResponse.sources response) st.
Proof.
  unfold onSocketResponse, settleWith.
  destruct (loadingLast (messages st) st); [|by destruct st].
  by rewrite three_assignments.
Qed.

Lemma onRestResponse_settleWith (response : ChatResponse.t) (st : State) :
  onRestResponse response st
  = settleWith (ChatResponse.response response) (ChatResponse.sources response) st.
Proof.
  unfold onRestResponse, settleWith.
  destruct (loadingLast (messages st) st); [|by destruct st].
  by rewrite three_assignments.
Qed.

Lemma onCaught_settleWith (st : State) :
  (onCaught st).1 = settleWith errorText [] st.
Proof.
  unfold onCaught, settleWith; simpl.
  destruct (loadingLast (messages st) st); [|by destruct st].
  by rewrite three_assignments.
Qed.

Lemma settleWith_messages text srcs st :
  messages (settleWith text srcs st) = messages st.
Proof. unfold settleWith. by destruct (loadingLast _ _). Qed.

Lemma settleWith_isLoading text srcs st :
  isLoading (settleWith text srcs st) = false.
Proof. unfold settleWith. by destruct (loadingLast _ _). Qed.

Lemma settleWith_length text srcs st :
  length (store (settleWith text srcs st)) = length (store st).
Proof.
  unfold settleWith. destruct (loadingLast _ _); simpl; [|done].
  apply length_alter.
Qed.

(** Only the object behind the last reference can change. *)
Lemma settleWith_frame text srcs st (r : nat) :
  last (messages st) ≠ Some r →
  store (settleWith text srcs st) !! r = store st !! r.
Proof.
  intros Hr. unfold settleWith.
  destruct (loadingLast _ _) as [r'|] eqn:E; simpl; [|done].
  apply loadingLast_Some in E as [E _].
  apply list_lookup_alter_ne. congruence.
Qed.

Lemma settleWith_pending text srcs st (r : nat) (m : ChatMessage.t) :
  last (messages st) = Some r →
  store st !! r = Some m →
  ChatMessage.isLoading m = Some true →
  store (settleWith text srcs st) = <[r := settled text srcs m]> (store st).
Proof.
  intros Hlast Hm Hl. unfold settleWith.
  assert (loadingLast (messages st) st = Some r) as ->
    by (apply loadingLast_Some; eauto).
  simpl. apply list_eq; intros i.
  destruct (decide (i = r)) as [->|Hne].
  - rewrite list_lookup_alter_eq, Hm; simpl.
    rewrite list_lookup_insert_eq; [done|]. by eapply lookup_lt_Some.
  - by rewrite list_lookup_alter_ne, list_lookup_insert_ne.
Qed.

Lemma settleWith_not_pending text srcs st :
  loadingLast (messages st) st = None →
  settleWith text srcs st = setIsLoading false st.
Proof. unfold settleWith. by intros ->. Qed.

Lemma settleWith_wf text srcs st : wf st → wf (settleWith text srcs st).
Proof.
  intros [Hnd Hin]. split.
  - by rewrite settleWith_messages.
  - intros r. rewrite settleWith_messages, settleWith_length. apply Hin.
Qed.

End Store.

(** ** The list as it is read *)

Section Snapshot.
Import useChat.

Lemma snapshot_length (st : State) : length (snapshot st) = length (messages st).
Proof. apply length_fmap. Qed.

Lemma snapshot_lookup (st : State) (i : nat) :
  snapshot st !! i = (fun r => store st !! r) <$> messages st !! i.
Proof. apply list_lookup_fmap. Qed.

Lemma snapshot_last (st : State) :
  last (snapshot st) = (fun r => store st !! r) <$> last (messages st).
Proof. apply fmap_last. Qed.

(** Writing through the last reference of a well-formed array changes
    the last position of what is read, and no other. *)
Lemma snapshot_insert_last (st : State) (r : nat) (x : ChatMessage.t) :
  wf st →
  last (messages st) = Some r →
  snapshot (setStore (<[r := x]> (store st)) st)
  = <[pred (length (snapshot st)) := Some x]> (snapshot st).
Proof.
  intros [Hnd Hin] Hlast.
  assert (messages st !! pred (length (messages st)) = Some r) as Hr
    by (by rewrite <- last_lookup).
  assert (r < length (store st)) as Hlt
    by (apply Hin, list_elem_of_lookup; eauto).
  apply list_eq; intros i.
  rewrite snapshot_length, snapshot_lookup; simpl.
  destruct (decide (i = pred (length (messages st)))) as [->|Hne].
  - rewrite Hr; simpl. rewrite list_lookup_insert_eq by done.
    rewrite list_lookup_insert_eq; [done|].
    rewrite snapshot_length. apply lookup_lt_Some in Hr. lia.
  - rewrite list_lookup_insert_ne by done. rewrite snapshot_lookup.
    destruct (messages st !! i) as [r'|] eqn:Hi; simpl; [|done].
    rewrite list_lookup_insert_ne; [done|].
    intros ->. apply Hne. eapply NoDup_lookup; eauto.
Qed.

Lemma snapshot_setIsLoading b st : snapshot (setIsLoading b st) = snapshot st.
Proof. done. Qed.

(** The three updaters do to the list what the specification says. *)
Lemma snapshot_settleWith text srcs (st : State) :
  wf st →
  snapshot (settleWith text srcs st) = settleLast text srcs (snapshot st).
Proof.
  intros Hwf. unfold settleLast. rewrite snapshot_last.
  destruct (last (messages st)) as [r|] eqn:Hlast; simpl.
  - destruct (store st !! r) as [m|] eqn:Hm.
    + destruct (ChatMessage.isLoading m) as [[]|] eqn:Hl; simpl.
      * unfold settleWith.
        assert (loadingLast (messages st) st = Some r) as ->
          by (apply loadingLast_Some; eauto).
        rewrite <- (snapshot_insert_last st r _ Hwf Hlast).
        rewrite snapshot_setIsLoading. f_equal. f_equal.
        apply list_eq; intros i. destruct (decide (i = r)) as [->|Hne].
        -- rewrite list_lookup_alter_eq, Hm; simpl.
           rewrite list_lookup_insert_eq; [done|]. by eapply lookup_lt_Some.
        -- by rewrite list_lookup_alter_ne, list_lookup_insert_ne.
      * rewrite settleWith_not_pending; [done|].
        unfold loadingLast. by rewrite Hlast, Hm, Hl.
      * rewrite settleWith_not_pending; [done|].
        unfold loadingLast. by rewrite Hlast, Hm, Hl.
    + rewrite settleWith_not_pending; [done|].
      unfold loadingLast. by rewrite Hlast, Hm.
  - rewrite settleWith_not_pending; [done|].
    unfold loadingLast. by rewrite Hlast.
Qed.

End Snapshot.

(** ** [sendMessage] *)

Section SendMessage.
Import useChat.

Lemma sendMessage_blank env message web local st :
  JsString.blank message →
  sendMessage env message web local st = (st, [], Returned).
Proof.
  intros H. unfold sendMessage. by rewrite (trim_blank _ H).
Qed.

(** The state a call leaves when it does not return at line 61. *)
Lemma sendMessage_state env message web local st :
  JsString.trim message ≠ [] →
  (sendMessage env message web local st).1.1 = accepted env message st.
Proof.
  intros H. unfold sendMessage. rewrite (truthy_trim _ H); simpl.
  assert (∀ h, (h ++ [userMessage env message]) ++ [aiMessage env]
               = h ++ [userMessage env message; aiMessage env]) as Happ
    by (intros h; by rewrite <- app_assoc).
  assert (∀ h : list ChatMessage.t, length (h ++ [userMessage env message]) = S (length h))
    as Hlen by (intros h; rewrite length_app; simpl; lia).
  destruct (wsService st) as [service|]; [destruct (WebSocketService.isConnected service)|];
    simpl; unfold accepted; by rewrite Happ, Hlen.
Qed.

(** Over an open socket the call sends one frame and returns. *)
Lemma sendMessage_socket env message web local st :
  JsString.trim message ≠ [] →
  connected st = true →
  (sendMessage env message web local st).1.2
    = [WsSend (chatFrame (JsString.trim message) (default true web) (default true local))]
  ∧ (sendMessage env message web local st).2 = Returned.
Proof.
  intros H Hc. unfold sendMessage. rewrite (truthy_trim _ H); simpl.
  unfold connected in Hc. destruct (wsService st) as [service|]; [|done].
  rewrite Hc. unfold WebSocketService.sendMessage.
  unfold WebSocketService.isConnected in Hc. by rewrite Hc.
Qed.

(** Otherwise it posts to the chat endpoint and waits. *)
Lemma sendMessage_fallback env message web local st :
  JsString.trim message ≠ [] →
  connected st = false →
  (sendMessage env message web local st).1.2
    = [Post "/api/chat"
         (chatService.body (JsString.trim message) (Some (sessionId st))
            (Some (default true web)) (Some (default true local)))]
  ∧ (sendMessage env message web local st).2
    = Awaiting (chatService.sendMessage (JsString.trim message) (Some (sessionId st))
                  (Some (default true web)) (Some (default true local))).2.
Proof.
  intros H Hc. unfold sendMessage. rewrite (truthy_trim _ H); simpl.
  unfold connected in Hc. destruct (wsService st) as [service|]; [|done].
  by rewrite Hc.
Qed.

Lemma accepted_wf env message st : wf st → wf (accepted env message st).
Proof.
  intros [Hnd Hin]. split; simpl.
  - apply NoDup_app. split; [done|]. split.
    + intros r Hr Hr'. apply Hin in Hr.
      apply elem_of_cons in Hr' as [->|Hr']; [lia|].
      apply list_elem_of_singleton in Hr' as ->. lia.
    + apply NoDup_cons. split; [|apply NoDup_singleton].
      rewrite list_elem_of_singleton. lia.
  - intros r Hr. rewrite length_app; simpl.
    apply elem_of_app in Hr as [Hr|Hr]; [apply Hin in Hr; lia|].
    apply elem_of_cons in Hr as [->|Hr]; [lia|].
    apply list_elem_of_singleton in Hr as ->. lia.
Qed.

(** What the list reads as after an accepted call: the old entries,
    then the user message, then the placeholder. *)
Lemma accepted_snapshot env message st :
  wf st →
  snapshot (accepted env message st)
  = snapshot st ++ [Some (userMessage env message); Some (aiMessage env)].
Proof.
  intros [_ Hin]. unfold snapshot; simpl. rewrite fmap_app. f_equal.
  - apply list_fmap_ext. intros i r Hr.
    apply lookup_app_l. apply Hin, list_elem_of_lookup. eauto.
  - simpl. rewrite !lookup_app_r by lia.
    by rewrite Nat.sub_diag, (Nat.sub_succ_l _ _ (le_n _)), Nat.sub_diag.
Qed.

(** A whole call on the fallback path, as the hook's state sees it. *)
Lemma sendMessageThrough_fallback answer env message web local st :
  JsString.trim message ≠ [] →
  connected st = false →
  (sendMessageThrough answer env message web local st).1
  = (resume (match answer with
             | chatService.Fulfilled data => Some data
             | chatService.Rejected => None
             end) (accepted env message st)).1.
Proof.
  intros H Hc. unfold sendMessageThrough.
  pose proof (sendMessage_state env message web local st H) as Hst.
  pose proof (sendMessage_fallback env message web local st H Hc) as [_ Hk].
  destruct (sendMessage env message web local st) as [[st1 issued] status].
  simpl in *. subst st1 status. simpl.
  by destruct (resume _ _).
Qed.

Lemma settleLast_snoc text srcs view (m : ChatMessage.t) :
  ChatMessage.isLoading m = Some true →
  settleLast text srcs (view ++ [Some m]) = view ++ [Some (settled text srcs m)].
Proof.
  intros Hl. unfold settleLast. rewrite last_snoc, Hl; simpl.
  rewrite length_app; simpl. rewrite Nat.add_1_r; simpl.
  rewrite insert_app_r_alt by lia. by rewrite Nat.sub_diag.
Qed.

(** A rejected request ends in the [catch]; an answered one in the
    updater of lines 99-111. *)
Lemma resume_state (yielded : option ChatResponse.t) (st : State) :
  (resume yielded st).1
  = match yielded with
    | Some response =>
        settleWith (ChatResponse.response response) (ChatResponse.sources response) st
    | None => settleWith errorText [] st
    end.
Proof.
  destruct yielded as [response|]; simpl.
  - apply onRestResponse_settleWith.
  - apply onCaught_settleWith.
Qed.

(** *** Well-formedness is kept by everything the hook does *)

Lemma init_wf : wf init.
Proof. split; [constructor|]. by intros r ?%elem_of_nil. Qed.

Lemma sendMessage_wf env message web local st :
  wf st → wf (sendMessage env message web local st).1.1.
Proof.
  intros Hwf. destruct (decide (JsString.trim message = [])) as [E|E].
  - unfold sendMessage. by rewrite E.
  - rewrite sendMessage_state by done. by apply accepted_wf.
Qed.

Lemma resume_wf yielded st : wf st → wf (resume yielded st).1.
Proof.
  intros Hwf. rewrite resume_state. destruct yielded; by apply settleWith_wf.
Qed.

Lemma onMessage_wf incoming st : wf st → wf (onMessage incoming st).1.
Proof.
  intros Hwf. unfold onMessage; simpl. destruct (JsString.eqb _ _); [|done].
  rewrite onSocketResponse_settleWith. by apply settleWith_wf.
Qed.

Lemma onError_wf st : wf st → wf (onError st).1.
Proof. by intros [? ?]. Qed.

Lemma clearMessages_wf st : wf st → wf (clearMessages st).
Proof. intros _. split; [constructor|]. by intros r ?%elem_of_nil. Qed.

(** [handleSubmit] passes the trimmed input on, and trimming it again in
    [sendMessage] gives the same text. *)
Lemma userMessage_trimmed env (input : JsString.t) :
  userMessage env (JsString.trim input) = userMessage env input.
Proof. unfold userMessage. by rewrite trim_idem. Qed.

End SendMessage.

(** ** The claims *)

Lemma busy_wf : useChat.wf Sample.busy.
Proof.
  split.
  - vm_compute. apply NoDup_cons. split; [|apply NoDup_singleton].
    rewrite list_elem_of_singleton. lia.
  - intros r. vm_compute. intros Hr.
    apply elem_of_cons in Hr as [->|Hr]; [lia|].
    apply list_elem_of_singleton in Hr as ->. lia.
Defined.

(** C1. Single-turn invariant: while the loading flag is set, a submit is
    rejected.  [handleSubmit] of the chat interface returns the state it
    was given (same message array, same store, same input) and does
    nothing but [preventDefault]; [sendMessage] of [App] returns the state
    it was given and has no effect at all.  No message is appended and
    neither the socket nor the chat endpoint is contacted. *)
Theorem single_turn_invariant
    (env : useChat.Env) (now : Z) (ui : ChatInterface.State) (app : App.State) :
  (useChat.isLoading (ChatInterface.chat ui) = true →
   ChatInterface.handleSubmit env ui = (ui, [PreventDefault], useChat.Returned))
  ∧ (App.loading app = true →
     App.sendMessage now app = (app, [], false)).
Proof.
  split; intros H.
  - unfold ChatInterface.handleSubmit. by rewrite H, orb_true_r.
  - unfold App.sendMessage. by rewrite H, orb_true_r.
Qed.

Lemma single_turn_invariant_witness :
  ChatInterface.handleSubmit Sample.env (Sample.ui Sample.question Sample.busy)
    = (Sample.ui Sample.question Sample.busy, [PreventDefault], useChat.Returned)
  ∧ App.sendMessage 1730000000005 (Sample.app Sample.question true)
    = (Sample.app Sample.question true, [], false).
Proof.
  split.
  - apply (single_turn_invariant Sample.env 0 _ (Sample.app [] true)). reflexivity.
  - apply (single_turn_invariant Sample.env _ (Sample.ui [] Sample.busy)). reflexivity.
Defined.

(** C2. Chat endpoint contract: [chatService.sendMessage] issues exactly
    one request, a [post] to [/api/chat] whose body has exactly the
    fields [message], [session_id], [include_web_search] and
    [include_local_search], holding the arguments of the call.  What the
    call returns is the [data] of the response, a [ChatResponse]: its
    fields are exactly [response], [sources], [session_id] and
    [timestamp], and each source has exactly [title], [url], [domain],
    [type] and [snippet]. *)
Theorem chat_endpoint_contract
    (message : JsString.t) (sessionId : option JsString.t) (web local : option bool)
    (data : ChatResponse.t) :
  let call := chatService.sendMessage message sessionId web local in
  (∃ body,
      call.1 = [Post "/api/chat" body]
      ∧ keys body = ["message"; "session_id"; "include_web_search"; "include_local_search"]
      ∧ get "message" body = JsString message
      ∧ get "session_id" body = optString sessionId
      ∧ get "include_web_search" body = JsBool (default true web)
      ∧ get "include_local_search" body = JsBool (default true local))
  ∧ call.2 (chatService.Fulfilled data) = Some data
  ∧ keys (ofChatResponse data) = ["response"; "sources"; "session_id"; "timestamp"]
  ∧ get "sources" (ofChatResponse data) = JsArray (ofSource <$> ChatResponse.sources data)
  ∧ Forall (fun s => keys (ofSource s) = ["title"; "url"; "domain"; "type"; "snippet"])
           (ChatResponse.sources data).
Proof.
  simpl. split; [eexists; repeat split|].
  repeat split. apply Forall_forall. by intros s _.
Qed.

(** C3. Persistent channel protocol: whatever [sendMessage] of the hook
    puts on the socket is the object
    [{type: "chat", message, include_web_search, include_local_search}],
    with the trimmed text and the two flags of the call, and with an open
    socket and a text that is not blank it sends exactly one such frame.
    The channel handler treats an incoming message (one whose [data] has
    the shape of a chat response) as the completed answer exactly when its
    [type] is ["response"].  Then the loading flag is cleared and, when
    the last message is pending, that object is marked not loading and is
    given the [response] text and the [sources] of the message's [data];
    no other object and no other position of the list changes.  For any
    other [type] the handler leaves the state as it is, flag included. *)
Theorem channel_protocol
    (env : useChat.Env) (message : JsString.t) (web local : option bool)
    (st : useChat.State) (incoming : useChat.Incoming) :
  let frame :=
    JsObject [ ("type", JsString (JsString.lit "chat"));
               ("message", JsString (JsString.trim message));
               ("include_web_search", JsBool (default true web));
               ("include_local_search", JsBool (default true local)) ] in
  let payload := useChat.data incoming in
  let handled := (useChat.onMessage incoming st).1 in
  (∀ sent, WsSend sent ∈ (useChat.sendMessage env message web local st).1.2 →
           sent = frame)
  ∧ (JsString.trim message ≠ [] → useChat.connected st = true →
     (useChat.sendMessage env message web local st).1.2 = [WsSend frame])
  ∧ (useChat.type incoming = JsString.lit "response" →
     useChat.isLoading handled = false
     ∧ useChat.messages handled = useChat.messages st
     ∧ (∀ r m, last (useChat.messages st) = Some r →
               useChat.store st !! r = Some m →
               ChatMessage.isLoading m = Some true →
               useChat.store handled !! r
               = Some (ChatMessage.mk (ChatMessage.id m) (ChatMessage.message m)
                         (Some (ChatResponse.response payload))
                         (Some (ChatResponse.sources payload))
                         (ChatMessage.timestamp m) (ChatMessage.isUser m) (Some false)))
     ∧ (∀ r, last (useChat.messages st) ≠ Some r →
             useChat.store handled !! r = useChat.store st !! r)
     ∧ (useChat.loadingLast (useChat.messages st) st = None →
        useChat.store handled = useChat.store st)
     ∧ (useChat.wf st →
        useChat.snapshot handled
        = useChat.settleLast (ChatResponse.response payload) (ChatResponse.sources payload)
            (useChat.snapshot st)))
  ∧ (useChat.type incoming ≠ JsString.lit "response" → handled = st).
Proof.
  cbv zeta. split; [|split; [|split]].
  - intros payload. unfold useChat.sendMessage.
    destruct (negb _); simpl; [by intros ?%elem_of_nil|].
    destruct (useChat.wsService st) as [service|]; simpl.
    + destruct (WebSocketService.isConnected service); simpl.
      * unfold WebSocketService.sendMessage. case_bool_decide; simpl.
        -- by intros [= ->]%list_elem_of_singleton.
        -- by intros ?%list_elem_of_singleton.
      * by intros ?%list_elem_of_singleton.
    + by intros ?%list_elem_of_singleton.
  - intros H Hc. by apply sendMessage_socket.
  - intros H. unfold useChat.onMessage, JsString.eqb; cbn [fst].
    rewrite bool_decide_eq_true_2 by done. rewrite onSocketResponse_settleWith.
    split; [apply settleWith_isLoading|]. split; [apply settleWith_messages|].
    split; [|split; [|split]].
    + intros r m Hlast Hm Hl. rewrite (settleWith_pending _ _ _ _ _ Hlast Hm Hl).
      apply list_lookup_insert_eq. by eapply lookup_lt_Some.
    + intros r Hr. by apply settleWith_frame.
    + intros Hnone. by rewrite settleWith_not_pending.
    + intros Hwf. by apply snapshot_settleWith.
  - intros H. unfold useChat.onMessage, JsString.eqb; simpl.
    by rewrite bool_decide_eq_false_2.
Qed.

Lemma channel_protocol_witness :
  (useChat.sendMessage Sample.env Sample.question None (Some false) Sample.online).1.2
    = [WsSend (useChat.chatFrame (JsString.trim Sample.question) true false)]
  ∧ useChat.snapshot
      (useChat.onMessage (useChat.mkIncoming (JsString.lit "response") Sample.answer)
                         Sample.busy).1
    = [ Some (useChat.userMessage Sample.env Sample.question);
        Some (useChat.settled (ChatResponse.response Sample.answer)
                (ChatResponse.sources Sample.answer) (useChat.aiMessage Sample.env)) ]
  ∧ useChat.isLoading
      (useChat.onMessage (useChat.mkIncoming (JsString.lit "response") Sample.answer)
                         Sample.busy).1 = false
  ∧ (useChat.onMessage (useChat.mkIncoming (JsString.lit "error") Sample.answer)
                       Sample.busy).1
    = Sample.busy.
Proof.
  split; [|split; [|split]].
  - apply (channel_protocol Sample.env Sample.question None (Some false) Sample.online
             (useChat.mkIncoming [] Sample.answer)); [by vm_compute|reflexivity].
  - pose proof (channel_protocol Sample.env [] None None Sample.busy
                  (useChat.mkIncoming (JsString.lit "response") Sample.answer))
      as (_ & _ & Hresp & _).
    destruct (Hresp eq_refl) as (_ & _ & _ & _ & _ & Hsnap).
    rewrite (Hsnap busy_wf). reflexivity.
  - pose proof (channel_protocol Sample.env [] None None Sample.busy
                  (useChat.mkIncoming (JsString.lit "response") Sample.answer))
      as (_ & _ & Hresp & _).
    by destruct (Hresp eq_refl) as (Hflag & _).
  - apply (channel_protocol Sample.env [] None None Sample.busy
             (useChat.mkIncoming (JsString.lit "error") Sample.answer)). by vm_compute.
Defined.

(** C4. Transport-mode equivalence: given the same response, the
    socket's response handler and the continuation of the synchronous
    request leave the same state.  On the list as it is read, both do
    what the specification says: when the last message is pending it is
    marked not loading and receives the response text and the sources,
    every other entry and the length of the list stay as they were; and
    the loading flag is cleared. *)
Theorem transport_equivalence (response : ChatResponse.t) (st : useChat.State) :
  useChat.wf st →
  useChat.onSocketResponse response st = useChat.onRestResponse response st
  ∧ useChat.snapshot (useChat.onSocketResponse response st)
    = useChat.settleLast (ChatResponse.response response) (ChatResponse.sources response)
        (useChat.snapshot st)
  ∧ useChat.snapshot (useChat.onRestResponse response st)
    = useChat.settleLast (ChatResponse.response response) (ChatResponse.sources response)
        (useChat.snapshot st)
  ∧ useChat.messages (useChat.onSocketResponse response st) = useChat.messages st
  ∧ useChat.isLoading (useChat.onSocketResponse response st) = false.
Proof.
  intros Hwf. rewrite onRestResponse_settleWith, onSocketResponse_settleWith.
  repeat split.
  - by apply snapshot_settleWith.
  - by apply snapshot_settleWith.
  - apply settleWith_messages.
  - apply settleWith_isLoading.
Qed.

Lemma transport_equivalence_witness :
  useChat.wf Sample.busy
  ∧ useChat.onSocketResponse Sample.answer Sample.busy
    = useChat.onRestResponse Sample.answer Sample.busy
  ∧ useChat.snapshot (useChat.onRestResponse Sample.answer Sample.busy)
    = [ Some (useChat.userMessage Sample.env Sample.question);
        Some (useChat.settled (ChatResponse.response Sample.answer)
                [Sample.who; Sample.notes] (useChat.aiMessage Sample.env)) ].
Proof.
  pose proof (transport_equivalence Sample.answer Sample.busy busy_wf)
    as (Heq & _ & Hrest & _).
  split; [exact busy_wf|]. split; [exact Heq|].
  rewrite Hrest. reflexivity.
Defined.

(** C5. Empty-input rejection: for a text that is empty or holds nothing
    but white space and line terminators, [sendMessage] of the hook
    returns at once: the state is the one it was given, nothing is sent on
    the socket, nothing is posted, and the call does not wait.  A submit
    of such an input in the chat interface never reaches [sendMessage]. *)
Theorem empty_input_rejected (env : useChat.Env) (message : JsString.t) :
  JsString.blank message →
  (∀ web local st,
      useChat.sendMessage env message web local st = (st, [], useChat.Returned))
  ∧ (∀ ui, ChatInterface.input ui = message →
           ChatInterface.handleSubmit env ui = (ui, [PreventDefault], useChat.Returned)).
Proof.
  intros H. split.
  - intros web local st. by apply sendMessage_blank.
  - intros ui E. unfold ChatInterface.handleSubmit. by rewrite E, (trim_blank _ H).
Qed.

Lemma empty_input_rejected_witness :
  useChat.sendMessage Sample.env Sample.spaces None None Sample.idle
    = (Sample.idle, [], useChat.Returned)
  ∧ useChat.sendMessage Sample.env [] (Some true) (Some true) Sample.online
    = (Sample.online, [], useChat.Returned).
Proof.
  split.
  - apply (empty_input_rejected Sample.env Sample.spaces).
    unfold JsString.blank, Sample.spaces. by repeat constructor.
  - apply (empty_input_rejected Sample.env []). constructor.
Defined.

(** C8. Frame effect of accepting a query: for a text that is not blank
    after trimming, [sendMessage] of the hook appends exactly two
    references to the message array, to two new objects: a user message
    carrying the trimmed text, then an assistant placeholder that is
    loading.  Every object that was in the store is unchanged, so the list
    reads as before, followed by the two new messages.  (This holds
    whether or not the loading flag was set.) *)
Theorem accept_appends_two
    (env : useChat.Env) (message : JsString.t) (web local : option bool)
    (st : useChat.State) :
  useChat.wf st →
  JsString.trim message ≠ [] →
  let st' := (useChat.sendMessage env message web local st).1.1 in
  let user := useChat.userMessage env message in
  let placeholder := useChat.aiMessage env in
  useChat.snapshot st' = useChat.snapshot st ++ [Some user; Some placeholder]
  ∧ (∃ u a, useChat.messages st' = useChat.messages st ++ [u; a]
            ∧ useChat.store st' !! u = Some user
            ∧ useChat.store st' !! a = Some placeholder)
  ∧ (∀ r, r < length (useChat.store st) →
          useChat.store st' !! r = useChat.store st !! r)
  ∧ ChatMessage.isUser user = true
  ∧ ChatMessage.message user = JsString.trim message
  ∧ ChatMessage.isUser placeholder = false
  ∧ ChatMessage.isLoading placeholder = Some true
  ∧ useChat.wf st'.
Proof.
  intros Hwf H. simpl. rewrite (sendMessage_state _ _ _ _ _ H).
  split; [by apply accepted_snapshot|].
  split.
  { exists (length (useChat.store st)), (S (length (useChat.store st))).
    simpl. split; [done|]. split.
    - rewrite lookup_app_r by lia. by rewrite Nat.sub_diag.
    - rewrite lookup_app_r by lia.
      by rewrite (Nat.sub_succ_l _ _ (le_n _)), Nat.sub_diag. }
  split; [intros r Hr; simpl; by apply lookup_app_l|].
  repeat split; try done; by apply accepted_wf.
Qed.

Lemma accept_appends_two_witness :
  useChat.snapshot (useChat.sendMessage Sample.env Sample.question None None Sample.busy).1.1
  = useChat.snapshot Sample.busy
      ++ [ Some (useChat.userMessage Sample.env Sample.question);
           Some (useChat.aiMessage Sample.env) ].
Proof.
  apply (accept_appends_two Sample.env Sample.question None None Sample.busy busy_wf).
  by vm_compute.
Defined.

(** C9. Error-path atomicity: the [catch] block of [sendMessage] leaves
    the message array as it was, so its length is unchanged, and clears
    the loading flag, whatever the state.  When the last message is the
    loading placeholder, that object, at its place, gets the fixed error
    text as response, an empty list of sources, and is no longer loading;
    no other object changes.  In particular a call whose request is
    rejected ends with the two messages it appended, the second one
    holding the error text, and with the flag cleared. *)
Theorem error_path_atomic (st : useChat.State) :
  useChat.wf st →
  let st' := (useChat.onCaught st).1 in
  useChat.messages st' = useChat.messages st
  ∧ length (useChat.snapshot st') = length (useChat.snapshot st)
  ∧ useChat.isLoading st' = false
  ∧ useChat.snapshot st' = useChat.settleLast useChat.errorText [] (useChat.snapshot st)
  ∧ (∀ r m, last (useChat.messages st) = Some r →
            useChat.store st !! r = Some m →
            ChatMessage.isLoading m = Some true →
            useChat.store st' !! r = Some (useChat.settled useChat.errorText [] m))
  ∧ (∀ r, last (useChat.messages st) ≠ Some r →
          useChat.store st' !! r = useChat.store st !! r)
  ∧ (∀ env message web local,
        JsString.trim message ≠ [] →
        useChat.connected st = false →
        let final :=
          (useChat.sendMessageThrough chatService.Rejected env message web local st).1 in
        useChat.snapshot final
        = useChat.snapshot st
            ++ [ Some (useChat.userMessage env message);
                 Some (useChat.settled useChat.errorText [] (useChat.aiMessage env)) ]
        ∧ useChat.isLoading final = false).
Proof.
  intros Hwf. cbv zeta. rewrite onCaught_settleWith.
  split; [apply settleWith_messages|].
  split; [by rewrite !snapshot_length, settleWith_messages|].
  split; [apply settleWith_isLoading|].
  split; [by apply snapshot_settleWith|].
  split; [|split].
  - intros r m Hlast Hm Hl. rewrite (settleWith_pending _ _ _ _ _ Hlast Hm Hl).
    apply list_lookup_insert_eq. by eapply lookup_lt_Some.
  - intros r Hr. by apply settleWith_frame.
  - intros env message web local H Hc.
    rewrite (sendMessageThrough_fallback _ _ _ _ _ _ H Hc).
    unfold useChat.resume. rewrite onCaught_settleWith. split; [|apply settleWith_isLoading].
    rewrite snapshot_settleWith by (by apply accepted_wf).
    rewrite accepted_snapshot by done.
    change [Some (useChat.userMessage env message); Some (useChat.aiMessage env)]
      with ([Some (useChat.userMessage env message)] ++ [Some (useChat.aiMessage env)]).
    rewrite app_assoc, settleLast_snoc by done.
    by rewrite <- app_assoc.
Qed.

Lemma error_path_atomic_witness :
  useChat.snapshot (useChat.onCaught Sample.busy).1
  = [ Some (useChat.userMessage Sample.env Sample.question);
      Some (useChat.settled useChat.errorText [] (useChat.aiMessage Sample.env)) ]
  ∧ useChat.isLoading (useChat.onCaught Sample.busy).1 = false.
Proof.
  pose proof (error_path_atomic Sample.busy busy_wf) as (_ & _ & Hflag & Hsnap & _).
  split; [|exact Hflag]. rewrite Hsnap. reflexivity.
Defined.

(** ** The reconnection loop *)

Section Reconnect.
Import WebSocketService.

Lemma connect_attempts (s : t) :
  reconnectAttempts (connect s).1 = reconnectAttempts s.
Proof. unfold connect. by destruct (validUrl (clientId s)). Qed.

Lemma connect_clientId (s : t) : clientId (connect s).1 = clientId s.
Proof. unfold connect. by destruct (validUrl (clientId s)). Qed.

(** What [connect] leaves: one more socket, connecting and held in
    [this.ws]; or, when the constructor throws, the state as it was. *)
Lemma connect_cases (s : t) :
  (validUrl (clientId s) = true
   ∧ sockets (connect s).1 = sockets s ++ [CONNECTING]
   ∧ ws (connect s).1 = Some (length (sockets s)))
  ∨ (validUrl (clientId s) = false ∧ (connect s).1 = s).
Proof. unfold connect. destruct (validUrl (clientId s)); [by left|by right]. Qed.

Lemma attemptReconnect_budget (s : t) (n : nat) :
  let '(s', scheduled) := attemptReconnect s in
  (if scheduled then S n else n) + (maxReconnectAttempts - reconnectAttempts s')
  = n + (maxReconnectAttempts - reconnectAttempts s).
Proof.
  unfold attemptReconnect.
  destruct (reconnectAttempts s <? maxReconnectAttempts) eqn:E;
    cbn [reconnectAttempts]; [|done].
  apply Nat.ltb_lt in E. lia.
Qed.

(** No event but an open changes the budget. *)
Lemma step_budget (e : Event) (l l' : Loop) :
  step e l = Some l' → isOpenEvent e = false → budget l' = budget l.
Proof.
  unfold step, budget. intros Hstep Hopen.
  destruct e as [i|i|i|i| |]; simpl in *; try done.
  - destruct (sockets (service l) !! i) as [[]|]; by simplify_eq.
  - destruct (sockets (service l) !! i) as [[]|]; by simplify_eq.
  - destruct (sockets (service l) !! i) as [r|] eqn:Hi; [|done].
    pose proof (attemptReconnect_budget (setSocket i CLOSED (service l)) (timers l))
      as Hb.
    unfold onclose in Hstep.
    destruct (attemptReconnect _) as [s' scheduled].
    unfold setSocket in Hb; cbn [reconnectAttempts] in Hb.
    destruct r; simplify_eq; cbn [service timers reconnects]; lia.
  - destruct (timers l) as [|pending]; simplify_eq.
    cbn [service timers reconnects]. rewrite connect_attempts. lia.
  - simplify_eq. simpl. unfold disconnect.
    by destruct (ws (service l)).
Qed.

Lemma run_budget (evs : list Event) (l l' : Loop) :
  run evs l = Some l' →
  Forall (fun e => isOpenEvent e = false) evs →
  budget l' = budget l.
Proof.
  revert l. induction evs as [|e evs IH]; intros l Hrun Hopen; simpl in *.
  - by simplify_eq.
  - inversion_clear Hopen as [|? ? He Hevs].
    destruct (step e l) as [l1|] eqn:Hstep; [|done].
    rewrite (IH _ Hrun Hevs). by eapply step_budget.
Qed.

(** *** What holds of every state the loop can reach *)

Lemma start_Inv (id : JsString.t) : Inv (start id).
Proof.
  unfold start, connect, create; cbn [clientId].
  destruct (validUrl id); split; simpl.
  - unfold maxReconnectAttempts. lia.
  - lia.
  - intros [|i] [|j] ri rj; simpl; try done.
  - lia.
  - unfold maxReconnectAttempts. lia.
  - lia.
  - by intros [|i] [|j] ri rj.
  - lia.
Qed.

Lemma close_live (r : ReadyState) : live (close r) ↔ live r.
Proof. unfold live. by destruct r. Qed.

Lemma step_Inv (e : Event) (l l' : Loop) : step e l = Some l' → Inv l → Inv l'.
Proof.
  unfold step. intros Hstep [Hb [Ht1 Hta] Hone Hidle].
  destruct e as [i|i|i|i| |]; simpl in *.
  - (* open *)
    destruct (sockets (service l) !! i) as [r|] eqn:Hi; [|done].
    destruct r; simplify_eq.
    assert (timers l = 0) as Ht0.
    { destruct (timers l) as [|[|n]] eqn:E; [done| |lia].
      by specialize (Hidle eq_refl _ _ Hi). }
    split; simpl.
    + lia.
    + lia.
    + intros j k rj rk Hj Hlj Hk Hlk.
      assert (∀ n rn, <[i:=OPEN]> (sockets (service l)) !! n = Some rn →
                      live rn → n = i) as Honly.
      { intros n rn Hn Hln. destruct (decide (n = i)) as [|Hne]; [done|].
        rewrite list_lookup_insert_ne in Hn by done.
        by apply (Hone n i rn CONNECTING). }
      rewrite (Honly _ _ Hj Hlj). by rewrite (Honly _ _ Hk Hlk).
    + lia.
  - destruct (sockets (service l) !! i) as [[]|]; by simplify_eq.
  - destruct (sockets (service l) !! i) as [[]|]; by simplify_eq.
  - (* close *)
    destruct (sockets (service l) !! i) as [r|] eqn:Hi; [|done].
    assert (live r) as Hlr by (unfold live; by destruct r).
    assert (timers l = 0) as Ht0.
    { destruct (timers l) as [|[|n]] eqn:E; [done| |lia].
      by specialize (Hidle eq_refl _ _ Hi). }
    assert (∀ n rn, <[i:=CLOSED]> (sockets (service l)) !! n = Some rn → rn = CLOSED)
      as Hall.
    { intros n rn Hn. destruct (decide (n = i)) as [->|Hne].
      - rewrite list_lookup_insert_eq in Hn by (by eapply lookup_lt_Some).
        by simplify_eq.
      - rewrite list_lookup_insert_ne in Hn by done.
        destruct (decide (rn = CLOSED)) as [|Hln]; [done|].
        by specialize (Hone n i rn r Hn Hln Hi Hlr). }
    assert (l' = let '(s', scheduled) := onclose (setSocket i CLOSED (service l)) in
                 mkLoop s' (if scheduled then S (timers l) else timers l) (reconnects l))
      as -> by (destruct r; try done; destruct (onclose _); by simplify_eq).
    unfold onclose, attemptReconnect; simpl.
    destruct (reconnectAttempts (service l) <? maxReconnectAttempts) eqn:E.
    + apply Nat.ltb_lt in E. split; simpl.
      * lia.
      * lia.
      * intros j k rj rk Hj Hlj. by rewrite (Hall _ _ Hj) in Hlj.
      * intros _. exact Hall.
    + split; simpl.
      * lia.
      * lia.
      * intros j k rj rk Hj Hlj. by rewrite (Hall _ _ Hj) in Hlj.
      * intros _. exact Hall.
  - (* a timer fires *)
    destruct (timers l) as [|pending] eqn:Ht; simplify_eq.
    assert (pending = 0) as -> by lia.
    specialize (Hidle eq_refl).
    assert (∀ n rn, sockets (connect (service l)).1 !! n = Some rn →
                    live rn → n = length (sockets (service l))) as Honly.
    { intros n rn Hn Hln.
      destruct (connect_cases (service l)) as [(_ & Hs & _)|[_ Hs]]; rewrite Hs in Hn.
      - apply lookup_app_Some in Hn as [Hn|[Hge Hn]].
        + by rewrite (Hidle _ _ Hn) in Hln.
        + apply list_lookup_singleton_Some in Hn as [Hn _]. lia.
      - by rewrite (Hidle _ _ Hn) in Hln. }
    split; cbn [service timers reconnects]; rewrite ?connect_attempts.
    + lia.
    + lia.
    + intros j k rj rk Hj Hlj Hk Hlk.
      rewrite (Honly _ _ Hj Hlj). by rewrite (Honly _ _ Hk Hlk).
    + lia.
  - (* disconnect *)
    simplify_eq. unfold disconnect.
    destruct (ws (service l)) as [w|]; [|by split].
    assert (∀ n rn, alter close w (sockets (service l)) !! n = Some rn →
                    ∃ r, sockets (service l) !! n = Some r ∧ (live rn ↔ live r))
      as Hsame.
    { intros n rn Hn. destruct (decide (w = n)) as [->|Hne].
      - rewrite list_lookup_alter_eq in Hn.
        destruct (sockets (service l) !! n) as [r|]; simplify_eq/=.
        exists r. split; [done|]. apply close_live.
      - rewrite list_lookup_alter_ne in Hn by done. eauto. }
    split; simpl.
    + lia.
    + lia.
    + intros j k rj rk Hj Hlj Hk Hlk.
      destruct (Hsame _ _ Hj) as (r1 & H1 & E1).
      destruct (Hsame _ _ Hk) as (r2 & H2 & E2).
      apply (Hone j k r1 r2); tauto.
    + intros Ht n rn Hn. destruct (Hsame _ _ Hn) as (r & Hr & E).
      specialize (Hidle Ht _ _ Hr). subst r.
      destruct (decide (rn = CLOSED)) as [|Hl]; [done|].
      exfalso. by apply E in Hl.
Qed.

Lemma run_Inv (evs : list Event) (l l' : Loop) : run evs l = Some l' → Inv l → Inv l'.
Proof.
  revert l. induction evs as [|e evs IH]; intros l Hrun HI; simpl in *.
  - by simplify_eq.
  - destruct (step e l) as [l1|] eqn:Hstep; [|done].
    eapply IH; [done|]. by eapply step_Inv.
Qed.

(** *** Once it has given up *)

Lemma step_givenUp (e : Event) (l l' : Loop) :
  givenUp l → step e l = Some l' → givenUp l' ∧ reconnects l' = reconnects l.
Proof.
  unfold givenUp, step. intros (Hmax & Ht & Hc) Hstep.
  destruct e as [i|i|i|i| |]; simpl in *.
  - destruct (sockets (service l) !! i) as [r|] eqn:Hi; [|done].
    destruct r; try done. exfalso. apply Hc. by eapply list_elem_of_lookup_2.
  - destruct (sockets (service l) !! i) as [[]|]; by simplify_eq.
  - destruct (sockets (service l) !! i) as [[]|]; by simplify_eq.
  - destruct (sockets (service l) !! i) as [r|] eqn:Hi; [|done].
    assert (l' = mkLoop (setSocket i CLOSED (service l)) (timers l) (reconnects l))
      as ->.
    { unfold onclose, attemptReconnect in Hstep. simpl in Hstep.
      destruct (reconnectAttempts (service l) <? maxReconnectAttempts) eqn:E.
      - apply Nat.ltb_lt in E. lia.
      - destruct r; by simplify_eq. }
    simpl. repeat split; try done.
    intros Hin. apply list_elem_of_lookup in Hin as [n Hn].
    destruct (decide (n = i)) as [->|Hne].
    + rewrite list_lookup_insert_eq in Hn by (by eapply lookup_lt_Some). done.
    + rewrite list_lookup_insert_ne in Hn by done.
      apply Hc. by eapply list_elem_of_lookup_2.
  - by rewrite Ht in Hstep.
  - simplify_eq. simpl. unfold disconnect.
    destruct (ws (service l)) as [w|]; [|done].
    simpl. repeat split; try done.
    intros Hin. apply list_elem_of_lookup in Hin as [n Hn].
    destruct (decide (w = n)) as [->|Hne].
    + rewrite list_lookup_alter_eq in Hn.
      destruct (sockets (service l) !! n) as [[]|]; by simplify_eq/=.
    + rewrite list_lookup_alter_ne in Hn by done.
      apply Hc. by eapply list_elem_of_lookup_2.
Qed.

Lemma run_givenUp (evs : list Event) (l l' : Loop) :
  givenUp l → run evs l = Some l' → givenUp l' ∧ reconnects l' = reconnects l.
Proof.
  revert l. induction evs as [|e evs IH]; intros l Hg Hrun; simpl in *.
  - by simplify_eq.
  - destruct (step e l) as [l1|] eqn:Hstep; [|done].
    destruct (step_givenUp _ _ _ Hg Hstep) as [Hg1 <-]. by apply IH.
Qed.

End Reconnect.

Section ReconnectClaim.
Import WebSocketService.

(** When the one live socket of a reachable state closes, every socket
    is closed. *)
Lemma close_all_closed (l : Loop) (i : nat) (r : ReadyState) :
  Inv l → sockets (service l) !! i = Some r → live r →
  ∀ n rn, <[i:=CLOSED]> (sockets (service l)) !! n = Some rn → rn = CLOSED.
Proof.
  intros HI Hi Hlr n rn Hn. destruct (decide (n = i)) as [->|Hne].
  - rewrite list_lookup_insert_eq in Hn by (by eapply lookup_lt_Some).
    by simplify_eq.
  - rewrite list_lookup_insert_ne in Hn by done.
    destruct (decide (rn = CLOSED)) as [|Hln]; [done|].
    by specialize (inv_one l HI n i rn r Hn Hln Hi Hlr).
Qed.

(** A close that finds the counter at its bound schedules nothing and
    leaves the service given up. *)
Lemma close_at_bound_givenUp (l l' : Loop) (i : nat) :
  Inv l →
  reconnectAttempts (service l) = maxReconnectAttempts →
  step (SocketClose i) l = Some l' →
  givenUp l' ∧ reconnects l' = reconnects l.
Proof.
  intros HI Hmax Hstep. simpl in Hstep.
  destruct (sockets (service l) !! i) as [r|] eqn:Hi; [|done].
  assert (live r) as Hlr by (unfold live; by destruct r).
  assert (timers l = 0) as Ht0.
  { destruct (inv_timers l HI) as [Ht1 _].
    destruct (timers l) as [|[|n]] eqn:E; [done| |lia].
    by specialize (inv_idle l HI E _ _ Hi). }
  assert (l' = mkLoop (setSocket i CLOSED (service l)) (timers l) (reconnects l)) as ->.
  { unfold onclose, attemptReconnect in Hstep. simpl in Hstep.
    rewrite Hmax, Nat.ltb_irrefl in Hstep. destruct r; by simplify_eq. }
  split; [|done]. unfold givenUp; simpl. split; [lia|]. split; [done|].
  intros Hin. apply list_elem_of_lookup in Hin as [n Hn].
  by specialize (close_all_closed l i r HI Hi Hlr n _ Hn).
Qed.

Lemma run_app (evs1 evs2 : list Event) (l : Loop) :
  run (evs1 ++ evs2) l = run evs1 l ≫= run evs2.
Proof.
  revert l. induction evs1 as [|e evs1 IH]; intros l; simpl; [done|].
  destruct (step e l); simpl; [apply IH|done].
Qed.

(** Every open sets the counter to 0. *)
Lemma open_resets (l l' : Loop) (i : nat) :
  step (SocketOpen i) l = Some l' → reconnectAttempts (service l') = 0.
Proof.
  simpl. destruct (sockets (service l) !! i) as [[]|]; by intros [= <-].
Qed.

(** One round of [flapping]: open, close, reconnect. *)
Lemma flap_once (id : JsString.t) (n a : nat) :
  validUrl id = true →
  run [SocketOpen n; SocketClose n; TimerFires]
      (mkLoop (mk id (replicate n CLOSED ++ [CONNECTING]) (Some n) a) 0 n)
  = Some (mkLoop (mk id (replicate (S n) CLOSED ++ [CONNECTING]) (Some (S n)) 1) 0 (S n)).
Proof.
  intros Hid.
  assert (∀ x, (replicate n CLOSED ++ [x]) !! n = Some x) as Hat.
  { intros x. rewrite lookup_app_r by (rewrite length_replicate; lia).
    by rewrite length_replicate, Nat.sub_diag. }
  assert (∀ x y, <[n:=y]> (replicate n CLOSED ++ [x]) = replicate n CLOSED ++ [y]) as Hset.
  { intros x y. rewrite insert_app_r_alt by (rewrite length_replicate; lia).
    by rewrite length_replicate, Nat.sub_diag. }
  assert (step (SocketOpen n)
            (mkLoop (mk id (replicate n CLOSED ++ [CONNECTING]) (Some n) a) 0 n)
          = Some (mkLoop (mk id (replicate n CLOSED ++ [OPEN]) (Some n) 0) 0 n)) as H1.
  { simpl. rewrite Hat. unfold onopen, setSocket; simpl. by rewrite Hset. }
  assert (step (SocketClose n)
            (mkLoop (mk id (replicate n CLOSED ++ [OPEN]) (Some n) 0) 0 n)
          = Some (mkLoop (mk id (replicate (S n) CLOSED) (Some n) 1) 1 n)) as H2.
  { simpl. rewrite Hat. unfold onclose, attemptReconnect, setSocket; simpl.
    by rewrite Hset, <- replicate_S_end. }
  assert (step TimerFires (mkLoop (mk id (replicate (S n) CLOSED) (Some n) 1) 1 n)
          = Some (mkLoop (mk id (replicate (S n) CLOSED ++ [CONNECTING]) (Some (S n)) 1)
                         0 (S n))) as H3.
  { cbn [step timers service reconnects]. unfold connect. cbn [clientId].
    rewrite Hid. cbn [fst sockets reconnectAttempts].
    by rewrite length_replicate. }
  cbn [run]. by rewrite H1, H2, H3.
Qed.

(** With a URL the constructor accepts, [flapping n] runs, and ends after
    [n] reconnections with a socket connecting. *)
Lemma flapping_runs (id : JsString.t) (n : nat) :
  validUrl id = true →
  ∃ a, run (Trace.flapping n) (start id)
       = Some (mkLoop (mk id (replicate n CLOSED ++ [CONNECTING]) (Some n) a) 0 n).
Proof.
  intros Hid. induction n as [|n [a IH]].
  - exists 0. unfold start, connect, create. cbn [clientId]. by rewrite Hid.
  - exists 1. cbn [Trace.flapping]. rewrite run_app, IH. cbn [mbind option_bind].
    by apply flap_once.
Qed.

End ReconnectClaim.

(** C6, as stated, fails.  After the channel has closed and the counter
    has reached [maxReconnectAttempts], the fifth reconnection still runs;
    when it succeeds, [onopen] resets the counter, and the next close
    starts a sixth connection attempt. *)
Lemma reconnection_resumes_after_open :
  WebSocketService.run Trace.exhausting (WebSocketService.start Trace.client)
    = Some Trace.atBound
  ∧ WebSocketService.reconnectAttempts (WebSocketService.service Trace.atBound)
    = WebSocketService.maxReconnectAttempts
  ∧ WebSocketService.reconnects Trace.atBound = 4
  ∧ WebSocketService.run Trace.recovering Trace.atBound = Some Trace.again
  ∧ WebSocketService.reconnects Trace.again = 6
  ∧ WebSocketService.maxReconnectAttempts < WebSocketService.reconnects Trace.again.
Proof.
  split; [by vm_compute|]. split; [reflexivity|]. split; [reflexivity|].
  split; [by vm_compute|]. split; [reflexivity|].
  unfold WebSocketService.maxReconnectAttempts. simpl. lia.
Qed.

(** C6, amended.  In every state the service can reach after its
    [connect], the counter is within [maxReconnectAttempts], and in any
    further stretch of events that holds no successful open the service
    initiates at most [maxReconnectAttempts] reconnections.  A close that
    finds the counter at the bound schedules nothing; and once the counter
    is at the bound with nothing scheduled and no socket still connecting,
    no event makes the service initiate a connection attempt again.  Every
    successful open sets the counter to 0; so over the life of the channel
    the reconnections are not bounded: when the constructor accepts the
    URL, every number of reconnections is reached by a run in which the
    server accepts each connection and then drops it. *)
Theorem reconnection_bounded_between_opens
    (clientId : JsString.t)
    (before after : list WebSocketService.Event)
    (reached final : WebSocketService.Loop) :
  WebSocketService.run before (WebSocketService.start clientId) = Some reached →
  WebSocketService.run after reached = Some final →
  WebSocketService.reconnectAttempts (WebSocketService.service final)
    <= WebSocketService.maxReconnectAttempts
  ∧ (Forall (fun e => WebSocketService.isOpenEvent e = false) after →
     WebSocketService.reconnects final
       <= WebSocketService.reconnects reached + WebSocketService.maxReconnectAttempts)
  ∧ (∀ i closed,
        WebSocketService.reconnectAttempts (WebSocketService.service final)
          = WebSocketService.maxReconnectAttempts →
        WebSocketService.step (WebSocketService.SocketClose i) final = Some closed →
        WebSocketService.givenUp closed
        ∧ WebSocketService.reconnects closed = WebSocketService.reconnects final)
  ∧ (WebSocketService.givenUp reached →
     WebSocketService.givenUp final
     ∧ WebSocketService.reconnects final = WebSocketService.reconnects reached)
  ∧ (∀ i opened,
        WebSocketService.step (WebSocketService.SocketOpen i) final = Some opened →
        WebSocketService.reconnectAttempts (WebSocketService.service opened) = 0)
  ∧ (WebSocketService.validUrl clientId = true →
     ∀ n, ∃ l,
       WebSocketService.run (Trace.flapping n) (WebSocketService.start clientId) = Some l
       ∧ WebSocketService.reconnects l = n).
Proof.
  intros Hbefore Hafter.
  pose proof (run_Inv _ _ _ Hbefore (start_Inv clientId)) as HI1.
  pose proof (run_Inv _ _ _ Hafter HI1) as HI2.
  split; [apply (WebSocketService.inv_bound _ HI2)|].
  split; [|split; [|split; [|split]]].
  - intros Hopen. pose proof (run_budget _ _ _ Hafter Hopen) as Hb.
    unfold WebSocketService.budget in Hb.
    destruct (WebSocketService.inv_timers _ HI1) as [_ Ht].
    pose proof (WebSocketService.inv_bound _ HI1). lia.
  - intros i closed Hmax Hstep. by eapply close_at_bound_givenUp.
  - intros Hg. by eapply run_givenUp.
  - intros i opened Hstep. by eapply open_resets.
  - intros Hid n. destruct (flapping_runs clientId n Hid) as [a Hrun].
    eexists. split; [exact Hrun|done].
Qed.

Lemma exhausted_givenUp : WebSocketService.givenUp Trace.exhausted.
Proof.
  unfold WebSocketService.givenUp. split; [vm_compute; lia|]. split; [reflexivity|].
  intros Hin.
  change (WebSocketService.CONNECTING ∈ replicate 6 WebSocketService.CLOSED) in Hin.
  apply elem_of_replicate in Hin as [? _]. done.
Defined.

Lemma reconnection_bounded_between_opens_witness :
  WebSocketService.run (Trace.exhausting ++ Trace.failing)
    (WebSocketService.start Trace.client) = Some Trace.exhausted
  ∧ WebSocketService.run Trace.afterwards Trace.exhausted = Some Trace.silent
  ∧ WebSocketService.givenUp Trace.exhausted
  ∧ WebSocketService.givenUp Trace.silent
  ∧ WebSocketService.reconnects Trace.silent = WebSocketService.reconnects Trace.exhausted
  ∧ WebSocketService.reconnects Trace.silent
    <= WebSocketService.reconnects Trace.exhausted + WebSocketService.maxReconnectAttempts
  ∧ ∃ l, WebSocketService.run (Trace.flapping 40) (WebSocketService.start Trace.client)
         = Some l
         ∧ WebSocketService.reconnects l = 40.
Proof.
  assert (WebSocketService.run (Trace.exhausting ++ Trace.failing)
            (WebSocketService.start Trace.client)
          = Some Trace.exhausted) as Hbefore by (by vm_compute).
  assert (WebSocketService.run Trace.afterwards Trace.exhausted = Some Trace.silent)
    as Hafter by (by vm_compute).
  pose proof (reconnection_bounded_between_opens _ _ _ _ _ Hbefore Hafter)
    as (_ & Hstretch & _ & Hgiven & _ & Hflap).
  destruct (Hgiven exhausted_givenUp) as [Hg Hsame].
  split; [exact Hbefore|]. split; [exact Hafter|]. split; [exact exhausted_givenUp|].
  split; [exact Hg|]. split; [exact Hsame|]. split.
  - apply Hstretch. unfold Trace.afterwards. by repeat constructor.
  - apply Hflap. by vm_compute.
Defined.

(** ** Rendering of sources *)

Section Cards.
Import ChatMessageView.

Lemma labels_seq {A : Type} (l : list A) (k : nat) :
  (imap (fun index (_ : A) => index + k) l) = seq k (length l).
Proof.
  revert k. induction l as [|x l IH]; intros k; simpl; [done|].
  f_equal. rewrite <- (IH (S k)). apply imap_ext. intros i y _. simpl. lia.
Qed.

(** The elements [ChatMessage] makes of a list of sources. *)
Lemma cards_of (message : ChatMessage.t) (srcs : list Source.t) :
  ChatMessage.isUser message = false →
  truthy_flag (ChatMessage.isLoading message) = false →
  ChatMessage.sources message = Some srcs →
  cards (render message) = imap (fun index source => mkCard (index + 1) source) srcs
  ∧ (srcs ≠ [] →
     ∃ text, render message
             = Answer text (Some (imap (fun index source => mkCard (index + 1) source) srcs)))
  ∧ (srcs = [] → ∃ text, render message = Answer text None).
Proof.
  intros Huser Hload Hsrc. unfold render, renderSources. rewrite Huser, Hload, Hsrc.
  destruct srcs as [|s0 srcs]; simpl.
  - split; [done|]. split; [done|]. eauto.
  - split; [done|]. split; [eauto|done].
Qed.

Lemma cards_index (srcs : list Source.t) :
  index <$> imap (fun index source => mkCard (index + 1) source) srcs
  = seq 1 (length srcs).
Proof. rewrite fmap_imap, <- (labels_seq srcs 1). by apply imap_ext. Qed.

Lemma cards_source (srcs : list Source.t) :
  source <$> imap (fun index source => mkCard (index + 1) source) srcs = srcs.
Proof.
  rewrite fmap_imap. rewrite <- (list_fmap_id srcs) at 2.
  rewrite <- imap_const. by apply imap_ext.
Qed.

(** A card of a web source needs [ExternalLinkIcon]. *)
Lemma renderCard_web exports (card : SourceCard) :
  Source.type (source card) = web →
  exports "ExternalLinkIcon" = false →
  renderCard exports card = None.
Proof.
  intros Hweb Hicon. unfold renderCard, showsLink, getSourceIcon, element.
  rewrite Hweb, Hicon. cbn [iconName].
  by destruct (exports "GlobeAltIcon").
Qed.

Lemma renderCard_document exports (card : SourceCard) :
  Source.type (source card) = document →
  exports "DocumentTextIcon" = true →
  renderCard exports card
  = Some (mkCardView (index card) "DocumentTextIcon" (getDomainColor (source card))
            (Source.domain (source card)) None (Source.title (source card))
            (snippetShown (source card))).
Proof.
  intros Hdoc Hicon. unfold renderCard, showsLink, getSourceIcon, element.
  rewrite Hdoc. cbn [iconName]. by rewrite Hicon.
Qed.

(** The cards that reach the screen keep the number and the title of
    their elements, in order. *)
Lemma renderCards_keeps exports (cs : list SourceCard) (views : list CardView) :
  renderCards exports cs = Some views →
  shownIndex <$> views = index <$> cs
  ∧ shownTitle <$> views = (fun c => Source.title (source c)) <$> cs.
Proof.
  revert views. induction cs as [|c cs IH]; intros views; simpl.
  - by intros [= <-].
  - destruct (renderCard exports c) as [view|] eqn:Hc; [|done]. simpl.
    destruct (renderCards exports cs) as [rest|]; [|done]. simpl. intros [= <-].
    destruct (IH rest eq_refl) as [Hidx Htitle].
    rewrite !fmap_cons, Hidx, Htitle.
    unfold renderCard in Hc.
    destruct (element exports (iconName _)); simpl in Hc; [|done].
    destruct (showsLink (source c)); simpl in Hc.
    + destruct (element exports "ExternalLinkIcon"); simpl in Hc; [|done].
      by simplify_eq.
    + by simplify_eq.
Qed.

Lemma renderCards_throws exports (cs : list SourceCard) :
  Exists (fun c => renderCard exports c = None) cs → renderCards exports cs = None.
Proof.
  induction 1 as [c cs Hc|c cs _ IH]; simpl.
  - by rewrite Hc.
  - rewrite IH. by destruct (renderCard exports c).
Qed.

Lemma renderCards_all exports (cs : list SourceCard) :
  Forall (fun c => is_Some (renderCard exports c)) cs → is_Some (renderCards exports cs).
Proof.
  induction 1 as [|c cs [view Hc] _ [views IH]]; simpl; [by eexists|].
  rewrite Hc, IH. by eexists.
Qed.

(** What holds of a source holds of the card made of it. *)
Lemma cards_Exists (P : Source.t → Prop) (srcs : list Source.t) :
  Exists P srcs →
  Exists (fun c => P (source c)) (imap (fun index source => mkCard (index + 1) source) srcs).
Proof.
  intros (s & Hin & Hs)%Exists_exists. apply Exists_exists.
  apply list_elem_of_lookup in Hin as [i Hi].
  exists (mkCard (i + 1) s). split; [|done].
  apply list_elem_of_lookup. exists i. by rewrite list_lookup_imap, Hi.
Qed.

Lemma cards_Forall (P : Source.t → Prop) (srcs : list Source.t) :
  Forall P srcs →
  Forall (fun c => P (source c)) (imap (fun index source => mkCard (index + 1) source) srcs).
Proof.
  intros Hall. apply Forall_forall. intros c Hc.
  apply list_elem_of_lookup in Hc as [i Hi].
  rewrite list_lookup_imap in Hi.
  destruct (srcs !! i) as [s|] eqn:Hs; simplify_eq/=.
  eapply Forall_forall; [exact Hall|]. by eapply list_elem_of_lookup_2.
Qed.

(** When is the answer on the screen, and with which cards. *)
Lemma display_answer exports (message : ChatMessage.t) (srcs : list Source.t) :
  ChatMessage.isUser message = false →
  truthy_flag (ChatMessage.isLoading message) = false →
  ChatMessage.sources message = Some srcs →
  exports "DocumentTextIcon" = true →
  exports "ExternalLinkIcon" = false →
  (Exists isWeb srcs → display exports message = None)
  ∧ (Forall (fun s => Source.type s = document) srcs →
     is_Some (display exports message)
     ∧ shownIndex <$> shown (display exports message) = seq 1 (length srcs)
     ∧ shownTitle <$> shown (display exports message) = Source.title <$> srcs).
Proof.
  intros Huser Hload Hsrc Hdoc Hext.
  destruct (cards_of message srcs Huser Hload Hsrc) as (_ & Hsome & Hnone).
  split.
  - intros Hweb. destruct srcs as [|s0 srcs]; [by apply Exists_nil in Hweb|].
    destruct (Hsome ltac:(done)) as [text Hr]. unfold display. rewrite Hr.
    rewrite renderCards_throws; [done|].
    eapply Exists_impl; [by apply (cards_Exists isWeb)|].
    intros c Hc. by apply renderCard_web.
  - intros Hdocs. destruct srcs as [|s0 srcs].
    + destruct (Hnone eq_refl) as [text Hr]. unfold display. rewrite Hr. simpl.
      split; [by eexists|done].
    + destruct (Hsome ltac:(done)) as [text Hr]. unfold display. rewrite Hr.
      set (cs := imap (fun index source => mkCard (index + 1) source) (s0 :: srcs)).
      assert (is_Some (renderCards exports cs)) as [views Hviews].
      { apply renderCards_all.
        eapply Forall_impl;
          [by apply (cards_Forall (fun s => Source.type s = document))|].
        intros c Hc. simpl in Hc. rewrite renderCard_document by done. by eexists. }
      rewrite Hviews. cbn [mbind option_bind shown].
      split; [by eexists|].
      destruct (renderCards_keeps exports cs views Hviews) as [-> ->].
      unfold cs. split; [apply cards_index|].
      rewrite <- (cards_source (s0 :: srcs)) at 2.
      by rewrite <- list_fmap_compose.
Qed.

End Cards.

(** C7. Citation-index ordering.  [ChatMessage] hands each source of a
    delivered answer to a [SourceCard] with the indices 1, 2, ..., N in the
    order of the array, and a card puts the index it is given in its
    badge; the links of [App] are numbered the same way.  So for an answer
    whose sources are all documents the screen shows the cards labelled
    1..N in list order.  But the card of a web source renders
    [<ExternalLinkIcon />], a name the icon package does not export: the
    render throws, and an answer with a web source among its sources
    reaches the screen with no source list at all. *)
Theorem citation_index_display
    (exports : string → bool) (message : ChatMessage.t) (srcs : list Source.t) :
  ChatMessage.isUser message = false →
  truthy_flag (ChatMessage.isLoading message) = false →
  ChatMessage.sources message = Some srcs →
  exports "DocumentTextIcon" = true →
  exports "ExternalLinkIcon" = false →
  let cards := ChatMessageView.cards (ChatMessageView.render message) in
  let screen := ChatMessageView.display exports message in
  ChatMessageView.index <$> cards = seq 1 (length srcs)
  ∧ ChatMessageView.source <$> cards = srcs
  ∧ (Forall (fun s => Source.type s = document) srcs →
     is_Some screen
     ∧ ChatMessageView.shownIndex <$> ChatMessageView.shown screen = seq 1 (length srcs)
     ∧ ChatMessageView.shownTitle <$> ChatMessageView.shown screen = Source.title <$> srcs)
  ∧ (Exists ChatMessageView.isWeb srcs → screen = None)
  ∧ (∀ ident text isUser,
        let links :=
          default [] (App.renderSources (App.mkMessage ident text isUser (Some srcs))) in
        fst <$> links = seq 1 (length srcs)
        ∧ snd <$> links = srcs
        ∧ (∀ i s, srcs !! i = Some s → links !! i = Some (i + 1, s))).
Proof.
  intros Huser Hload Hsrc Hdoc Hext. cbv zeta.
  destruct (cards_of message srcs Huser Hload Hsrc) as (-> & _).
  destruct (display_answer exports message srcs Huser Hload Hsrc Hdoc Hext)
    as [Hweb Hdocs].
  split; [apply cards_index|]. split; [apply cards_source|].
  split; [exact Hdocs|]. split; [exact Hweb|].
  intros ident text isUser. unfold App.renderSources. cbn [App.sources].
  destruct srcs as [|s0 srcs]; [by repeat split|].
  change (0 <? length (s0 :: srcs)) with true. cbv iota.
  set (l := s0 :: srcs). cbn [default from_option id].
  repeat split.
  - rewrite fmap_imap. rewrite <- (labels_seq l 1). by apply imap_ext.
  - rewrite fmap_imap. rewrite <- (list_fmap_id l) at 2.
    rewrite <- imap_const. by apply imap_ext.
  - intros i s Hi. by rewrite list_lookup_imap, Hi.
Qed.

Lemma citation_index_display_witness :
  ChatMessageView.display ChatMessageView.heroicons Sample.delivered = None
  ∧ ChatMessageView.shownIndex
      <$> ChatMessageView.shown
            (ChatMessageView.display ChatMessageView.heroicons Sample.fromNotes)
    = [1; 2].
Proof.
  split.
  - apply (citation_index_display ChatMessageView.heroicons Sample.delivered
             [Sample.who; Sample.notes] eq_refl eq_refl eq_refl eq_refl eq_refl).
    apply Exists_cons_hd. reflexivity.
  - pose proof (citation_index_display ChatMessageView.heroicons Sample.fromNotes
                  [Sample.notes; Sample.notes] eq_refl eq_refl eq_refl eq_refl eq_refl)
      as (_ & _ & Hdocs & _).
    destruct Hdocs as (_ & Hidx & _); [by repeat constructor|]. exact Hidx.
Defined.

(** ** The drop handler *)

Section Upload.
Import FileUpload.

Lemma mapNamed_filenames name f (uploads : list UploadProgress) :
  (∀ u, filename (f u) = filename u) →
  filename <$> mapNamed name f uploads = filename <$> uploads.
Proof.
  intros Hf. unfold mapNamed. rewrite <- list_fmap_compose.
  apply list_fmap_ext. intros i u _. simpl.
  by destruct (JsString.eqb (filename u) name).
Qed.

Lemma reports_filenames name (ps : list N) (uploads : list UploadProgress) :
  filename <$> foldl (fun uploads p => mapNamed name (withProgress p) uploads) uploads ps
  = filename <$> uploads.
Proof.
  revert uploads. induction ps as [|p ps IH]; intros uploads; simpl; [done|].
  rewrite IH. by apply mapNamed_filenames.
Qed.

(** What one turn of the loop adds. *)
Lemma onFile_spec serve (file : File) uploads done :
  ∃ extra,
    (onFile serve file (uploads, done)).2 = done ++ extra
    ∧ uploaded extra = (if oversized file then [] else [file])
    ∧ (oversized file = true → extra = [toast_error (tooLargeText file)])
    ∧ filename <$> (onFile serve file (uploads, done)).1
      = (filename <$> uploads) ++ (if oversized file then [] else [name file]).
Proof.
  unfold onFile, oversized. destruct (sizeLimit <? size file)%N; simpl.
  - eexists. split; [done|]. by rewrite app_nil_r.
  - destruct (outcome (serve file)); simpl.
    + eexists. split; [done|]. split; [done|]. split; [done|].
      rewrite mapNamed_filenames by done. by rewrite reports_filenames, fmap_app.
    + eexists. split; [done|]. split; [done|]. split; [done|].
      rewrite mapNamed_filenames by done. by rewrite reports_filenames, fmap_app.
Qed.

Lemma uploaded_app (a b : list Action) : uploaded (a ++ b) = uploaded a ++ uploaded b.
Proof. apply omap_app. Qed.

Lemma onDrop_from serve (files : list File) uploads done :
  let result := foldl (fun acc file => onFile serve file acc) (uploads, done) files in
  filename <$> (result.1)
    = (filename <$> uploads) ++ (name <$> filter (fun f => oversized f = false) files)
  ∧ uploaded result.2 = uploaded done ++ filter (fun f => oversized f = false) files
  ∧ Forall (fun f => oversized f = true → toast_error (tooLargeText f) ∈ result.2) files
  ∧ (∀ a, a ∈ done → a ∈ result.2).
Proof.
  revert uploads done. induction files as [|file files IH]; intros uploads done.
  - simpl. rewrite !app_nil_r. repeat split; [constructor|done].
  - cbv zeta. cbn [foldl].
    destruct (onFile_spec serve file uploads done)
      as (extra & Hdone & Hup & Hover & Hnames).
    destruct (onFile serve file (uploads, done)) as [uploads1 done1].
    cbn [fst snd] in Hdone, Hnames. subst done1.
    pose proof (IH uploads1 (done ++ extra)) as (IHnames & IHup & IHtoast & IHmono).
    cbv zeta in IHnames, IHup, IHtoast, IHmono.
    split; [|split; [|split]].
    + rewrite IHnames, Hnames, <- app_assoc. f_equal.
      rewrite filter_cons. by destruct (oversized file).
    + rewrite IHup, uploaded_app, Hup, <- app_assoc. f_equal.
      rewrite filter_cons. by destruct (oversized file).
    + constructor; [|done]. intros Hbig. apply IHmono.
      rewrite (Hover Hbig). apply elem_of_app. right. by apply list_elem_of_singleton.
    + intros a Ha. apply IHmono. apply elem_of_app. by left.
Qed.

End Upload.

(** C10. Upload size limit: the files [onDrop] hands to the upload
    service are exactly the dropped files that are not larger than
    50 * 1024 * 1024 bytes, in order; so no larger file is ever uploaded.
    For every larger file the size error is reported, and the loop goes
    on: the entries added to the progress list are exactly those of the
    files within the limit, in order, whatever the uploads report and
    however they end. *)
Theorem oversized_never_uploaded
    (serve : FileUpload.File → FileUpload.Transfer)
    (acceptedFiles : list FileUpload.File) (uploads : list FileUpload.UploadProgress) :
  let result := FileUpload.onDrop serve acceptedFiles uploads in
  let within := filter (fun f => FileUpload.oversized f = false) acceptedFiles in
  FileUpload.uploaded (result.2) = within
  ∧ Forall (fun f => (FileUpload.size f <= 50 * 1024 * 1024)%N)
           (FileUpload.uploaded (result.2))
  ∧ Forall (fun f => (50 * 1024 * 1024 < FileUpload.size f)%N →
                     (f ∉ FileUpload.uploaded (result.2))
                     ∧ (FileUpload.toast_error (FileUpload.tooLargeText f) ∈ result.2))
           acceptedFiles
  ∧ FileUpload.filename <$> (result.1)
    = (FileUpload.filename <$> uploads) ++ (FileUpload.name <$> within).
Proof.
  cbv zeta. unfold FileUpload.onDrop.
  destruct (onDrop_from serve acceptedFiles uploads []) as (Hnames & Hup & Htoast & _).
  simpl in Hup. split; [done|]. split; [|split; [|done]].
  - rewrite Hup. apply Forall_forall. intros f [Hf _]%list_elem_of_filter.
    unfold FileUpload.oversized, FileUpload.sizeLimit in Hf.
    apply N.ltb_ge in Hf. lia.
  - rewrite Hup. eapply Forall_impl; [exact Htoast|].
    intros f Hf Hbig; simpl in *.
    assert (FileUpload.oversized f = true) as Hover.
    { unfold FileUpload.oversized, FileUpload.sizeLimit. apply N.ltb_lt. lia. }
    split; [|by apply Hf].
    intros [Hin _]%list_elem_of_filter. congruence.
Qed.

Lemma oversized_never_uploaded_witness :
  let result :=
    FileUpload.onDrop
      (fun _ => FileUpload.mkTransfer [40; 100]%N FileUpload.Succeeds)
      [Sample.big; Sample.small] [] in
  FileUpload.uploaded (result.2) = [Sample.small]
  ∧ FileUpload.filename <$> (result.1) = [JsString.lit "notes.txt"]
  ∧ FileUpload.toast_error (FileUpload.tooLargeText Sample.big) ∈ result.2.
Proof.
  cbv zeta.
  pose proof (oversized_never_uploaded
                (fun _ => FileUpload.mkTransfer [40; 100]%N FileUpload.Succeeds)
                [Sample.big; Sample.small] []) as (Hup & _ & Htoast & Hnames).
  split; [exact Hup|]. split; [exact Hnames|].
  apply Forall_cons in Htoast as [Hbig _].
  apply Hbig. by vm_compute.
Defined.

(* ===================================================================== *)
(** * Further properties                                                  *)
(* ===================================================================== *)

(** ** The hook: what its handlers do together *)

Section Turns.
Import useChat.

(** After an updater has run, the last message is not loading. *)
Lemma settleWith_settles text srcs st :
  loadingLast (messages (settleWith text srcs st)) (settleWith text srcs st) = None.
Proof.
  unfold settleWith. destruct (loadingLast (messages st) st) as [r|] eqn:E; simpl.
  - apply loadingLast_Some in E as (Hlast & m & Hm & Hl).
    unfold loadingLast; simpl. rewrite Hlast, list_lookup_alter_eq, Hm. done.
  - unfold loadingLast in *; simpl. exact E.
Qed.

Lemma settleWith_twice text1 srcs1 text2 srcs2 st :
  settleWith text2 srcs2 (settleWith text1 srcs1 st) = settleWith text1 srcs1 st.
Proof.
  rewrite (settleWith_not_pending text2 srcs2) by apply settleWith_settles.
  unfold settleWith. by destruct (loadingLast (messages st) st).
Qed.

Lemma accepted_settled text srcs env message st :
  wf st →
  snapshot (settleWith text srcs (accepted env message st))
  = snapshot st ++ [Some (userMessage env message);
                    Some (settled text srcs (aiMessage env))].
Proof.
  intros Hwf. rewrite snapshot_settleWith by (by apply accepted_wf).
  rewrite accepted_snapshot by done.
  change [Some (userMessage env message); Some (aiMessage env)]
    with ([Some (userMessage env message)] ++ [Some (aiMessage env)]).
  rewrite app_assoc, settleLast_snoc by done.
  by rewrite <- app_assoc.
Qed.

End Turns.

(** X1. A late or repeated answer changes nothing: once one of the three
    updaters (socket response, awaited response, [catch]) has run, running
    any of the three again, with whatever response, leaves the state as it
    is.  An answer shown is never replaced, and neither is the error
    text. *)
Theorem answer_is_final (first later : ChatResponse.t) (st : useChat.State) :
  useChat.onSocketResponse later (useChat.onSocketResponse first st)
    = useChat.onSocketResponse first st
  ∧ useChat.onRestResponse later (useChat.onSocketResponse first st)
    = useChat.onSocketResponse first st
  ∧ (useChat.onCaught (useChat.onSocketResponse first st)).1
    = useChat.onSocketResponse first st
  ∧ useChat.onSocketResponse later (useChat.onRestResponse first st)
    = useChat.onRestResponse first st
  ∧ useChat.onRestResponse later (useChat.onRestResponse first st)
    = useChat.onRestResponse first st
  ∧ (useChat.onCaught (useChat.onRestResponse first st)).1
    = useChat.onRestResponse first st
  ∧ useChat.onSocketResponse later (useChat.onCaught st).1 = (useChat.onCaught st).1
  ∧ useChat.onRestResponse later (useChat.onCaught st).1 = (useChat.onCaught st).1
  ∧ (useChat.onCaught (useChat.onCaught st).1).1 = (useChat.onCaught st).1.
Proof.
  rewrite ?onCaught_settleWith, ?onSocketResponse_settleWith, ?onRestResponse_settleWith.
  rewrite ?onCaught_settleWith.
  repeat split; apply settleWith_twice.
Qed.

(** X2. A turn that is answered ends the same way in both modes.  For a
    text that is not blank: over an open socket, the call sends one frame
    and returns, and the ["response"] message that follows settles the
    placeholder; without one, the call posts to the chat endpoint and the
    fulfilled request settles the placeholder.  Either way the list reads
    as before, then the user message, then the assistant message holding
    the response text and sources, and the loading flag is clear. *)
Theorem answered_turn
    (env : useChat.Env) (message : JsString.t) (web local : option bool)
    (data : ChatResponse.t) (st : useChat.State) :
  useChat.wf st →
  JsString.trim message ≠ [] →
  let sent := useChat.sendMessage env message web local st in
  let reads :=
    useChat.snapshot st
      ++ [ Some (useChat.userMessage env message);
           Some (useChat.settled (ChatResponse.response data) (ChatResponse.sources data)
                   (useChat.aiMessage env)) ] in
  (useChat.connected st = true →
   let final :=
     (useChat.onMessage (useChat.mkIncoming (JsString.lit "response") data) sent.1.1).1 in
   sent.2 = useChat.Returned
   ∧ useChat.snapshot final = reads
   ∧ useChat.isLoading final = false)
  ∧ (useChat.connected st = false →
     let through :=
       useChat.sendMessageThrough (chatService.Fulfilled data) env message web local st in
     through.2
       = [Post "/api/chat"
            (chatService.body (JsString.trim message) (Some (useChat.sessionId st))
               (Some (default true web)) (Some (default true local)))]
     ∧ useChat.snapshot through.1 = reads
     ∧ useChat.isLoading through.1 = false).
Proof.
  intros Hwf H. cbv zeta. split; intros Hc.
  - destruct (sendMessage_socket env message web local st H Hc) as [_ Hret].
    split; [exact Hret|].
    rewrite (sendMessage_state _ _ _ _ _ H).
    unfold useChat.onMessage, JsString.eqb; cbn [fst useChat.type useChat.data].
    rewrite bool_decide_eq_true_2 by done.
    rewrite onSocketResponse_settleWith.
    split; [by apply accepted_settled|apply settleWith_isLoading].
  - split.
    + unfold useChat.sendMessageThrough.
      pose proof (sendMessage_fallback env message web local st H Hc) as [Hissued Hk].
      destruct (useChat.sendMessage env message web local st) as [[st1 issued] status].
      cbn [fst snd] in Hissued, Hk. subst issued status.
      cbn [snd chatService.sendMessage]. cbn [useChat.resume].
      by rewrite app_nil_r.
    + rewrite (sendMessageThrough_fallback _ _ _ _ _ _ H Hc).
      rewrite resume_state.
      split; [by apply accepted_settled|apply settleWith_isLoading].
Qed.

Lemma answered_turn_witness :
  useChat.snapshot
    (useChat.onMessage (useChat.mkIncoming (JsString.lit "response") Sample.answer)
       (useChat.sendMessage Sample.env Sample.question None None Sample.online).1.1).1
  = useChat.snapshot
      (useChat.sendMessageThrough (chatService.Fulfilled Sample.answer)
         Sample.env Sample.question None None Sample.idle).1.
Proof.
  assert (useChat.wf Sample.online) as Hon.
  { split; [constructor|]. by intros r ?%elem_of_nil. }
  assert (useChat.wf Sample.idle) as Hidle.
  { split; [constructor|]. by intros r ?%elem_of_nil. }
  assert (JsString.trim Sample.question ≠ []) as Hq by (by vm_compute).
  pose proof (answered_turn Sample.env Sample.question None None Sample.answer
                Sample.online Hon Hq) as [Hsock _].
  pose proof (answered_turn Sample.env Sample.question None None Sample.answer
                Sample.idle Hidle Hq) as [_ Hrest].
  destruct (Hsock eq_refl) as (_ & -> & _).
  destruct (Hrest eq_refl) as (_ & -> & _).
  reflexivity.
Defined.

Section Dispatch.
Import useChat.

(** The one transport effect of an accepted call. *)
Lemma sendMessage_issued env message web local st :
  JsString.trim message ≠ [] →
  (sendMessage env message web local st).1.2
  = [ if connected st
      then WsSend (chatFrame (JsString.trim message) (default true web) (default true local))
      else Post "/api/chat"
             (chatService.body (JsString.trim message) (Some (sessionId st))
                (Some (default true web)) (Some (default true local))) ].
Proof.
  intros H. destruct (connected st) eqn:Hc.
  - by apply sendMessage_socket.
  - by apply sendMessage_fallback.
Qed.

(** Passing a text or its trim to [sendMessage] is the same call. *)
Lemma sendMessage_trim env message web local st :
  sendMessage env (JsString.trim message) web local st
  = sendMessage env message web local st.
Proof. unfold sendMessage, userMessage. by rewrite !trim_idem. Qed.

Lemma setIsLoading_wf b st : wf st → wf (setIsLoading b st).
Proof. by intros [? ?]. Qed.

End Dispatch.

(** X3. Every query goes to exactly one transport.  A call of
    [sendMessage] whose text is blank contacts nothing; any other call has
    exactly one effect, and it is a transport effect: the chat frame on the
    socket when the service is connected, else the [post] to the chat
    endpoint, carrying the session id.  Never both, never twice. *)
Theorem one_transport_per_query
    (env : useChat.Env) (message : JsString.t) (web local : option bool)
    (st : useChat.State) :
  let issued := (useChat.sendMessage env message web local st).1.2 in
  (JsString.trim message = [] → issued = [])
  ∧ (JsString.trim message ≠ [] →
     issued
     = [ if useChat.connected st
         then WsSend (useChat.chatFrame (JsString.trim message)
                        (default true web) (default true local))
         else Post "/api/chat"
                (chatService.body (JsString.trim message) (Some (useChat.sessionId st))
                   (Some (default true web)) (Some (default true local))) ]
     ∧ Forall (fun e => isTransport e = true) issued
     ∧ length issued = 1).
Proof.
  cbv zeta. split.
  - intros H. unfold useChat.sendMessage. by rewrite H.
  - intros H. rewrite (sendMessage_issued _ _ _ _ _ H).
    split; [done|]. split; [|done].
    constructor; [|constructor]. by destruct (useChat.connected st).
Qed.

Lemma one_transport_per_query_witness :
  (useChat.sendMessage Sample.env Sample.spaces None None Sample.online).1.2 = []
  ∧ length (useChat.sendMessage Sample.env Sample.question None None Sample.online).1.2 = 1
  ∧ length (useChat.sendMessage Sample.env Sample.question None None Sample.idle).1.2 = 1.
Proof.
  split; [|split].
  - apply (one_transport_per_query Sample.env Sample.spaces None None Sample.online).
    by vm_compute.
  - apply (one_transport_per_query Sample.env Sample.question None None Sample.online).
    by vm_compute.
  - apply (one_transport_per_query Sample.env Sample.question None None Sample.idle).
    by vm_compute.
Defined.

(** X4. An accepted submit.  When the input is not blank and no turn is
    in flight, [handleSubmit] clears the input, keeps the settings, and
    leaves the hook in the state of an accepted query whose user message
    carries the trimmed input; besides [preventDefault] it has exactly the
    one transport effect of that query, with the two flags taken from the
    settings. *)
Theorem submit_accepted (env : useChat.Env) (ui : ChatInterface.State) :
  JsString.trim (ChatInterface.input ui) ≠ [] →
  useChat.isLoading (ChatInterface.chat ui) = false →
  let result := ChatInterface.handleSubmit env ui in
  let text := JsString.trim (ChatInterface.input ui) in
  let flags := ChatInterface.settings ui in
  result.1.1
  = ChatInterface.mk [] (ChatInterface.showSettings ui) (ChatInterface.showUpload ui)
      flags (useChat.accepted env (ChatInterface.input ui) (ChatInterface.chat ui))
  ∧ result.1.2
    = [ PreventDefault;
        if useChat.connected (ChatInterface.chat ui)
        then WsSend (useChat.chatFrame text
                       (ChatInterface.includeWebSearch flags)
                       (ChatInterface.includeLocalSearch flags))
        else Post "/api/chat"
               (chatService.body text (Some (useChat.sessionId (ChatInterface.chat ui)))
                  (Some (ChatInterface.includeWebSearch flags))
                  (Some (ChatInterface.includeLocalSearch flags))) ]
  ∧ ChatMessage.message (useChat.userMessage env (ChatInterface.input ui)) = text.
Proof.
  intros H Hidle. cbv zeta. unfold ChatInterface.handleSubmit.
  rewrite (truthy_trim _ H), Hidle. cbn [negb orb].
  cbn [ChatInterface.setInput ChatInterface.chat ChatInterface.settings].
  rewrite sendMessage_trim.
  pose proof (sendMessage_state env (ChatInterface.input ui)
                (Some (ChatInterface.includeWebSearch (ChatInterface.settings ui)))
                (Some (ChatInterface.includeLocalSearch (ChatInterface.settings ui)))
                (ChatInterface.chat ui) H) as Hst.
  pose proof (sendMessage_issued env (ChatInterface.input ui)
                (Some (ChatInterface.includeWebSearch (ChatInterface.settings ui)))
                (Some (ChatInterface.includeLocalSearch (ChatInterface.settings ui)))
                (ChatInterface.chat ui) H) as Hissued.
  destruct (useChat.sendMessage _ _ _ _ _) as [[c issued] status].
  cbn [fst snd] in *. subst c issued. done.
Qed.

Lemma submit_accepted_witness :
  ChatInterface.input
    (ChatInterface.handleSubmit Sample.env (Sample.ui Sample.question Sample.online)).1.1
  = []
  ∧ (ChatInterface.handleSubmit Sample.env (Sample.ui Sample.question Sample.online)).1.2
    = [ PreventDefault;
        WsSend (useChat.chatFrame (JsString.trim Sample.question) true true) ].
Proof.
  assert (JsString.trim Sample.question ≠ []) as Hq by (by vm_compute).
  pose proof (submit_accepted Sample.env (Sample.ui Sample.question Sample.online)
                Hq eq_refl) as (Hst & Hissued & _).
  split; [by rewrite Hst|exact Hissued].
Defined.

(** X5. A socket error strands the placeholder.  The error callback of
    the channel clears the loading flag and touches no message, so the
    placeholder of the turn in flight stays loading and the next submit is
    accepted.  The answer that then arrives settles the newest
    placeholder only: the stranded one reads as loading ever after. *)
Theorem socket_error_strands_placeholder
    (env1 env2 : useChat.Env) (message1 message2 : JsString.t)
    (web1 local1 web2 local2 : option bool)
    (response : ChatResponse.t) (st : useChat.State) :
  useChat.wf st →
  JsString.trim message1 ≠ [] →
  JsString.trim message2 ≠ [] →
  let failed := (useChat.onError (useChat.sendMessage env1 message1 web1 local1 st).1.1).1 in
  let next := (useChat.sendMessage env2 message2 web2 local2 failed).1.1 in
  useChat.isLoading failed = false
  ∧ useChat.snapshot failed
    = useChat.snapshot st
        ++ [ Some (useChat.userMessage env1 message1); Some (useChat.aiMessage env1) ]
  ∧ useChat.snapshot (useChat.onSocketResponse response next)
    = useChat.snapshot st
        ++ [ Some (useChat.userMessage env1 message1); Some (useChat.aiMessage env1);
             Some (useChat.userMessage env2 message2);
             Some (useChat.settled (ChatResponse.response response)
                     (ChatResponse.sources response) (useChat.aiMessage env2)) ].
Proof.
  intros Hwf H1 H2. cbv zeta.
  rewrite (sendMessage_state _ _ _ _ _ H1). unfold useChat.onError. cbn [fst].
  rewrite (sendMessage_state _ _ _ _ _ H2).
  assert (useChat.wf (useChat.setIsLoading false (useChat.accepted env1 message1 st)))
    as Hwf1 by (by apply setIsLoading_wf, accepted_wf).
  split; [done|]. split.
  - by rewrite snapshot_setIsLoading, accepted_snapshot.
  - rewrite onSocketResponse_settleWith, accepted_settled by done.
    rewrite snapshot_setIsLoading, accepted_snapshot by done.
    by rewrite <- app_assoc.
Qed.

Lemma socket_error_strands_placeholder_witness :
  useChat.snapshot
    (useChat.onSocketResponse Sample.answer
       (useChat.sendMessage Sample.env Sample.question None None
          (useChat.onError Sample.busy).1).1.1)
  = [ Some (useChat.userMessage Sample.env Sample.question);
      Some (useChat.aiMessage Sample.env);
      Some (useChat.userMessage Sample.env Sample.question);
      Some (useChat.settled (ChatResponse.response Sample.answer)
              (ChatResponse.sources Sample.answer) (useChat.aiMessage Sample.env)) ].
Proof.
  assert (useChat.wf Sample.idle) as Hidle.
  { split; [constructor|]. by intros r ?%elem_of_nil. }
  assert (JsString.trim Sample.question ≠ []) as Hq by (by vm_compute).
  pose proof (socket_error_strands_placeholder Sample.env Sample.env
                Sample.question Sample.question None None None None
                Sample.answer Sample.idle Hidle Hq Hq) as (_ & _ & Hfinal).
  exact Hfinal.
Defined.

(** X6. Clearing the chat while a request is pending.  [clearMessages]
    empties the list but leaves the loading flag as it is, so submits stay
    rejected until the request completes; when it does, with an answer or
    with an error, the list stays empty, no stored object is written, and
    the flag is cleared. *)
Theorem clear_drops_the_answer (yielded : option ChatResponse.t) (st : useChat.State) :
  let cleared := useChat.clearMessages st in
  let final := (useChat.resume yielded cleared).1 in
  useChat.snapshot cleared = []
  ∧ useChat.isLoading cleared = useChat.isLoading st
  ∧ useChat.snapshot final = []
  ∧ useChat.store final = useChat.store st
  ∧ useChat.isLoading final = false.
Proof.
  cbv zeta. rewrite resume_state.
  assert (∀ text srcs,
             useChat.settleWith text srcs (useChat.clearMessages st)
             = useChat.setIsLoading false (useChat.clearMessages st)) as Hno
    by (intros; by apply settleWith_not_pending).
  by destruct yielded; rewrite Hno.
Qed.

(** ** The hook: what holds of its list at all times *)

Section Paired.
Import useChat.

Lemma paired_app (v w : list (option ChatMessage.t)) :
  paired v → paired w → paired (v ++ w).
Proof.
  intros Hv Hw.
  assert (∀ n (v : list (option ChatMessage.t)),
             length v ≤ n → paired v → paired (v ++ w)) as Hgen.
  { clear v Hv. induction n as [|n IH]; intros v Hn Hv.
    - destruct v; [done|simpl in Hn; lia].
    - destruct v as [|[u|] [|[a|] rest]]; simpl in *; try done.
      destruct Hv as (Hu & Ha & Hrest). repeat split; try done.
      apply IH; [lia|done]. }
  by apply (Hgen (length v)).
Qed.

(** Rewriting one entry keeps the pairing when it keeps who speaks. *)
Lemma paired_insert (v : list (option ChatMessage.t)) (i : nat) (m m' : ChatMessage.t) :
  paired v → v !! i = Some (Some m) →
  ChatMessage.isUser m' = ChatMessage.isUser m →
  paired (<[i := Some m']> v).
Proof.
  intros Hv Hi Hsame.
  assert (∀ n (v : list (option ChatMessage.t)) i,
             length v ≤ n → paired v → v !! i = Some (Some m) →
             paired (<[i := Some m']> v)) as Hgen.
  { clear v i Hv Hi. induction n as [|n IH]; intros v i Hn Hv Hi.
    - destruct v; [done|simpl in Hn; lia].
    - destruct v as [|[u|] [|[a|] rest]]; simpl in *; try done.
      destruct Hv as (Hu & Ha & Hrest).
      destruct i as [|[|i]]; simpl in *.
      + simplify_eq. repeat split; try done. congruence.
      + simplify_eq. repeat split; try done. congruence.
      + repeat split; try done. apply IH; [lia|done|done]. }
  by apply (Hgen (length v)).
Qed.

Lemma paired_settleLast text srcs (v : list (option ChatMessage.t)) :
  paired v → paired (settleLast text srcs v).
Proof.
  intros Hv. unfold settleLast.
  destruct (last v) as [[m|]|] eqn:Hlast; try done.
  destruct (truthy_flag (ChatMessage.isLoading m)); [|done].
  apply (paired_insert _ _ m); [done| |done]. by rewrite <- last_lookup.
Qed.

Lemma act_keeps (a : Action) (st : State) :
  wf st → paired (snapshot st) → wf (act st a) ∧ paired (snapshot (act st a)).
Proof.
  intros Hwf Hp. destruct a as [id|service|env message web local|yielded|incoming| |];
    cbn [act].
  - split; [by destruct Hwf|done].
  - split; [by destruct Hwf|done].
  - split; [by apply sendMessage_wf|].
    destruct (decide (JsString.trim message = [])) as [E|E].
    + unfold sendMessage. by rewrite E.
    + rewrite sendMessage_state, accepted_snapshot by done.
      apply paired_app; [done|]. by simpl.
  - split; [by apply resume_wf|]. rewrite resume_state.
    destruct yielded; rewrite snapshot_settleWith by done; by apply paired_settleLast.
  - split; [by apply onMessage_wf|].
    unfold onMessage; cbn [fst]. destruct (JsString.eqb _ _); [|done].
    rewrite onSocketResponse_settleWith, snapshot_settleWith by done.
    by apply paired_settleLast.
  - split; [by apply onError_wf|done].
  - split; [by apply clearMessages_wf|done].
Qed.

End Paired.

(** X7. What the hook keeps true.  Whatever happens to a mounted hook,
    in whatever order (session id set, service attached or changed, calls
    of [sendMessage], awaited requests yielding or throwing, channel
    messages, channel errors, clearing), the message array never holds a
    reference twice nor one that points outside the store, and the list
    always reads as question, answer, question, answer: a user message at
    every even position, an assistant message right after it. *)
Theorem hook_invariant (actions : list useChat.Action) (st : useChat.State) :
  useChat.wf st →
  useChat.paired (useChat.snapshot st) →
  useChat.wf (useChat.after actions st)
  ∧ useChat.paired (useChat.snapshot (useChat.after actions st)).
Proof.
  unfold useChat.after. revert st.
  induction actions as [|a actions IH]; intros st Hwf Hp; [done|].
  cbn [foldl]. destruct (act_keeps a st Hwf Hp) as [Hwf' Hp']. by apply IH.
Qed.

Lemma hook_invariant_witness :
  let actions :=
    [ useChat.Mount (JsString.lit "session_1");
      useChat.Send Sample.env Sample.question None None;
      useChat.Fail;
      useChat.Send Sample.env Sample.spaces None None;
      useChat.Send Sample.env Sample.question (Some false) None;
      useChat.Settle None;
      useChat.Receive (useChat.mkIncoming (JsString.lit "response") Sample.answer) ] in
  useChat.wf (useChat.after actions useChat.init)
  ∧ useChat.paired (useChat.snapshot (useChat.after actions useChat.init))
  ∧ length (useChat.snapshot (useChat.after actions useChat.init)) = 4.
Proof.
  cbv zeta.
  match goal with
  | |- useChat.wf (useChat.after ?acts _) ∧ _ =>
      pose proof (hook_invariant acts useChat.init init_wf I) as [Hwf Hp]
  end.
  split; [exact Hwf|]. split; [exact Hp|]. by vm_compute.
Defined.

(** ** App.tsx: a whole turn *)

(** X8. A turn of [App].  With an input that is not blank and no turn
    in flight, [sendMessage] posts exactly
    [{message, include_web_search: true, include_local_search: true}] to
    the chat endpoint, with the input as typed (not trimmed) and no
    session id, clears the input and sets [loading].  When the request
    settles, exactly one message is appended after the user message: the
    answer with its sources, or the fixed error text without sources; and
    [loading] is false again, whatever the outcome. *)
Theorem app_turn (now later : Z) (outcome : chatService.Settled) (st : App.State) :
  JsString.trim (App.input st) ≠ [] →
  App.loading st = false →
  let sent := App.sendMessage now st in
  let final := (App.resume later outcome sent.1.1).1 in
  let reply :=
    match outcome with
    | chatService.Fulfilled data =>
        App.mkMessage (later + 1) (ChatResponse.response data) false
                      (Some (ChatResponse.sources data))
    | chatService.Rejected => App.mkMessage (later + 1) App.errorText false None
    end in
  (∃ body, sent.1.2 = [Post "/api/chat" body]
           ∧ keys body = ["message"; "include_web_search"; "include_local_search"]
           ∧ get "message" body = JsString (App.input st)
           ∧ get "include_web_search" body = JsBool true
           ∧ get "include_local_search" body = JsBool true)
  ∧ App.loading sent.1.1 = true
  ∧ App.messages final
    = App.messages st ++ [App.mkMessage now (App.input st) true None; reply]
  ∧ App.input final = []
  ∧ App.loading final = false.
Proof.
  intros H Hidle. cbv zeta. unfold App.sendMessage.
  rewrite (truthy_trim _ H), Hidle. cbn [negb orb fst snd].
  split; [eexists; by repeat split|]. split; [done|].
  destruct outcome; cbn [App.resume fst App.messages App.input App.loading];
    by rewrite <- app_assoc.
Qed.

Lemma app_turn_witness :
  App.messages
    (App.resume 1730000000900 chatService.Rejected
       (App.sendMessage 1730000000100 (Sample.app Sample.question false)).1.1).1
  = [ App.mkMessage 1730000000000 Sample.question true None;
      App.mkMessage 1730000000100 Sample.question true None;
      App.mkMessage 1730000000901 App.errorText false None ].
Proof.
  assert (JsString.trim Sample.question ≠ []) as Hq by (by vm_compute).
  pose proof (app_turn 1730000000100 1730000000900 chatService.Rejected
                (Sample.app Sample.question false) Hq eq_refl) as (_ & _ & Hmsgs & _).
  exact Hmsgs.
Defined.

(** ** ChatMessage.tsx *)

Section Rendering.
Import ChatMessageView.

Lemma orElse_truthy (a : option JsString.t) (b : JsString.t) :
  b ≠ [] → orElse a b ≠ [].
Proof.
  intros Hb. unfold orElse. destruct a as [[|c s]|]; simpl; done.
Qed.

Lemma startsWith_prefix (s sub : JsString.t) :
  startsWith s sub = true ↔ sub `prefix_of` s.
Proof.
  revert s. induction sub as [|c sub IH]; intros s.
  - split; [intros _; apply prefix_nil|by destruct s].
  - destruct s as [|d s]; simpl.
    + split; [done|]. by intros ?%prefix_nil_inv.
    + rewrite andb_true_iff, N.eqb_eq, IH. split.
      * intros [-> Hp]. by apply prefix_cons.
      * intros Hp. split; [by eapply prefix_cons_inv_1|by eapply prefix_cons_inv_2].
Qed.

(** [includes] finds [sub] exactly when [s] is some text, then [sub],
    then some text. *)
Lemma includes_infix (s sub : JsString.t) :
  includes s sub = true ↔ ∃ before behind, s = before ++ sub ++ behind.
Proof.
  induction s as [|c s IH].
  - cbn [includes]. rewrite orb_false_r, startsWith_prefix. split.
    + intros [k Hk]. exists [], k. done.
    + intros (before & behind & H).
      symmetry in H. apply app_eq_nil in H as [-> H].
      apply app_eq_nil in H as [-> _]. apply prefix_nil.
  - cbn [includes]. rewrite orb_true_iff, startsWith_prefix, IH. split.
    + intros [[k Hk]|(before & behind & ->)].
      * exists [], k. done.
      * exists (c :: before), behind. done.
    + intros ([|d before] & behind & H).
      * left. exists behind. done.
      * right. simpl in H. injection H as -> ->. eauto.
Qed.

End Rendering.

(** X9. What a message shows on the screen (with the icon package
    exporting [DocumentTextIcon] and not [ExternalLinkIcon]).  A message
    fails to render exactly when it is an assistant message that is not
    loading and has a web source among its sources.  A user message shows
    its text alone, and an assistant message that is loading shows the
    spinner.  Whenever an answer is shown its text is not empty: it is the
    response when there is one and it is not empty, and the fixed
    ["No response available"] if not.  A user message or a pending
    placeholder shows no source card, whatever sources the object
    carries. *)
Theorem render_cases (exports : string → bool) (message : ChatMessage.t) :
  exports "DocumentTextIcon" = true →
  exports "ExternalLinkIcon" = false →
  let screen := ChatMessageView.display exports message in
  (screen = None
   ↔ ChatMessage.isUser message = false
     ∧ truthy_flag (ChatMessage.isLoading message) = false
     ∧ ∃ srcs, ChatMessage.sources message = Some srcs
               ∧ Exists ChatMessageView.isWeb srcs)
  ∧ (ChatMessage.isUser message = true →
     screen = Some (ChatMessageView.ShowUser (ChatMessage.message message)))
  ∧ (ChatMessage.isUser message = false →
     truthy_flag (ChatMessage.isLoading message) = true →
     screen = Some ChatMessageView.ShowThinking)
  ∧ (∀ text views,
        screen = Some (ChatMessageView.ShowAnswer text views) →
        text ≠ []
        ∧ (∀ r, ChatMessage.response message = Some r → r ≠ [] → text = r)
        ∧ (ChatMessage.response message = None ∨ ChatMessage.response message = Some [] →
           text = JsString.lit "No response available"))
  ∧ (ChatMessage.isUser message = true ∨ truthy_flag (ChatMessage.isLoading message) = true →
     ChatMessageView.shown screen = []).
Proof.
  intros Hdoc Hext. cbv zeta.
  assert (∀ srcs : list Source.t,
             Forall (fun s => Source.type s = document) srcs
             ∨ Exists ChatMessageView.isWeb srcs) as Hsplit.
  { induction srcs as [|s srcs [IH|IH]].
    - left. constructor.
    - unfold ChatMessageView.isWeb.
      destruct (Source.type s) eqn:Hs; [right; by constructor|left; by constructor].
    - right. by constructor. }
  split; [|split; [|split; [|split]]].
  - split.
    + intros Hnone.
      destruct (ChatMessage.isUser message) eqn:Huser.
      { unfold ChatMessageView.display, ChatMessageView.render in Hnone.
        by rewrite Huser in Hnone. }
      destruct (truthy_flag (ChatMessage.isLoading message)) eqn:Hload.
      { unfold ChatMessageView.display, ChatMessageView.render in Hnone.
        by rewrite Huser, Hload in Hnone. }
      split; [done|]. split; [done|].
      destruct (ChatMessage.sources message) as [srcs|] eqn:Hsrc.
      * exists srcs. split; [done|]. destruct (Hsplit srcs) as [Hdocs|Hweb]; [|done].
        destruct (display_answer exports message srcs Huser Hload Hsrc Hdoc Hext)
          as [_ Hsome].
        destruct (Hsome Hdocs) as [[screen Hscreen] _]. congruence.
      * unfold ChatMessageView.display, ChatMessageView.render,
          ChatMessageView.renderSources in Hnone.
        by rewrite Huser, Hload, Hsrc in Hnone.
    + intros (Huser & Hload & srcs & Hsrc & Hweb).
      by apply (display_answer exports message srcs Huser Hload Hsrc Hdoc Hext).
  - intros Huser. unfold ChatMessageView.display, ChatMessageView.render.
    by rewrite Huser.
  - intros Huser Hload. unfold ChatMessageView.display, ChatMessageView.render.
    by rewrite Huser, Hload.
  - intros text views. unfold ChatMessageView.display, ChatMessageView.render.
    destruct (ChatMessage.isUser message); [done|].
    destruct (truthy_flag (ChatMessage.isLoading message)); [done|].
    intros Hshow.
    assert (text = ChatMessageView.orElse (ChatMessage.response message)
                     (JsString.lit "No response available")) as ->.
    { destruct (ChatMessageView.renderSources message) as [cs|]; simpl in Hshow.
      - destruct (ChatMessageView.renderCards exports cs); simpl in Hshow; congruence.
      - congruence. }
    split; [by apply orElse_truthy|]. split.
    + intros r -> Hr. unfold ChatMessageView.orElse. by destruct r.
    + by intros [->| ->].
  - unfold ChatMessageView.display, ChatMessageView.render.
    intros [->| Hl]; [done|]. rewrite Hl. by destruct (ChatMessage.isUser message).
Qed.

Lemma render_cases_witness :
  ChatMessageView.display ChatMessageView.heroicons (useChat.aiMessage Sample.env)
    = Some ChatMessageView.ShowThinking
  ∧ ChatMessageView.display ChatMessageView.heroicons Sample.delivered = None
  ∧ ChatMessageView.shown
      (ChatMessageView.display ChatMessageView.heroicons
         (useChat.userMessage Sample.env Sample.question)) = [].
Proof.
  split; [|split].
  - apply (render_cases ChatMessageView.heroicons (useChat.aiMessage Sample.env)
             eq_refl eq_refl); reflexivity.
  - apply (render_cases ChatMessageView.heroicons Sample.delivered eq_refl eq_refl).
    split; [reflexivity|]. split; [reflexivity|].
    exists [Sample.who; Sample.notes]. split; [reflexivity|].
    apply Exists_cons_hd. reflexivity.
  - apply (render_cases ChatMessageView.heroicons
             (useChat.userMessage Sample.env Sample.question) eq_refl eq_refl).
    left. reflexivity.
Defined.

(** X10. The colour of a source's domain.  The domain is shown green
    exactly when one of [pubmed], [who.int], [nih.gov], [mayoclinic.org],
    [nature.com] occurs somewhere inside it, as a run of the same code
    units (so a sub-domain or a longer host name matches, and so does any
    other host that merely contains one of the five; upper case does
    not); every other domain is shown blue. *)
Theorem domain_colour (source : Source.t) :
  (ChatMessageView.getDomainColor source = "text-green-600"
   ↔ ∃ medical before behind,
       medical ∈ ChatMessageView.medicalDomains
       ∧ Source.domain source = before ++ medical ++ behind)
  ∧ (ChatMessageView.getDomainColor source = "text-green-600"
     ∨ ChatMessageView.getDomainColor source = "text-blue-600").
Proof.
  unfold ChatMessageView.getDomainColor.
  destruct (existsb _ _) eqn:E.
  - split; [|by left]. split; [intros _|done].
    apply existsb_exists in E as (medical & Hin & Hinc).
    apply includes_infix in Hinc as (before & behind & Heq).
    exists medical, before, behind. split; [by apply list_elem_of_In|done].
  - split; [|by right]. split; [done|].
    intros (medical & before & behind & Hin & Heq). exfalso.
    assert (existsb (fun domain => ChatMessageView.includes (Source.domain source) domain)
                    ChatMessageView.medicalDomains = true) as Hex; [|congruence].
    apply existsb_exists. exists medical. split; [by apply list_elem_of_In|].
    apply includes_infix. eauto.
Qed.

(** ** WebSocketService: sockets and the [ws] field *)

Section Sockets.
Import WebSocketService.

Lemma step_serves (id : JsString.t) (e : Event) (l l' : Loop) :
  step e l = Some l' → serves id l → serves id l'.
Proof.
  unfold step, serves. intros Hstep Hid.
  destruct e as [i|i|i|i| |]; simpl in *.
  - destruct (sockets (service l) !! i) as [[]|]; by simplify_eq.
  - destruct (sockets (service l) !! i) as [[]|]; by simplify_eq.
  - destruct (sockets (service l) !! i) as [[]|]; by simplify_eq.
  - destruct (sockets (service l) !! i) as [r|]; [|done].
    unfold onclose, attemptReconnect in Hstep. simpl in Hstep.
    destruct (reconnectAttempts (service l) <? maxReconnectAttempts);
      destruct r; by simplify_eq.
  - destruct (timers l); simplify_eq. cbn [service]. by rewrite connect_clientId.
  - simplify_eq. unfold disconnect. by destruct (ws (service l)).
Qed.

Lemma step_newest (e : Event) (l l' : Loop) :
  validUrl (clientId (service l)) = true →
  step e l = Some l' → newest l → newest l'.
Proof.
  unfold step, newest. intros Hid Hstep [Hlen Hws].
  destruct e as [i|i|i|i| |]; simpl in *.
  - destruct (sockets (service l) !! i) as [[]|]; simplify_eq; simpl.
    by rewrite length_insert.
  - destruct (sockets (service l) !! i) as [[]|]; by simplify_eq.
  - destruct (sockets (service l) !! i) as [[]|]; by simplify_eq.
  - destruct (sockets (service l) !! i) as [r|]; [|done].
    assert (l' = let '(s', scheduled) := onclose (setSocket i CLOSED (service l)) in
                 mkLoop s' (if scheduled then S (timers l) else timers l) (reconnects l))
      as -> by (destruct r; try done; destruct (onclose _); by simplify_eq).
    unfold onclose, attemptReconnect; simpl.
    destruct (reconnectAttempts (service l) <? maxReconnectAttempts); simpl;
      by rewrite length_insert.
  - destruct (timers l); simplify_eq. cbn [service reconnects].
    destruct (connect_cases (service l)) as [(_ & -> & ->)|[Hno _]]; [|congruence].
    rewrite length_app; simpl. split; [lia|]. right. f_equal. lia.
  - simplify_eq. unfold disconnect.
    destruct (ws (service l)) as [w|] eqn:E; cbn [service reconnects sockets ws].
    + rewrite length_alter. split; [done|by left].
    + rewrite E. split; [done|by left].
Qed.

Lemma run_newest (evs : list Event) (l l' : Loop) :
  validUrl (clientId (service l)) = true →
  run evs l = Some l' → newest l → newest l'.
Proof.
  revert l. induction evs as [|e evs IH]; intros l Hid Hrun Hn; simpl in *.
  - by simplify_eq.
  - destruct (step e l) as [l1|] eqn:Hstep; [|done].
    eapply IH; [|done|by eapply step_newest].
    by rewrite (step_serves (clientId (service l)) e l l1 Hstep eq_refl).
Qed.

Lemma run_serves (id : JsString.t) (evs : list Event) (l l' : Loop) :
  run evs l = Some l' → serves id l → serves id l'.
Proof.
  revert l. induction evs as [|e evs IH]; intros l Hrun Hid; simpl in *.
  - by simplify_eq.
  - destruct (step e l) as [l1|] eqn:Hstep; [|done].
    eapply IH; [done|]. by eapply step_serves.
Qed.

(** A service whose first [connect] threw has no socket and no timer:
    the only thing that can still happen is a call of [disconnect], which
    finds [this.ws] [null] and does nothing. *)
Lemma run_dead (id : JsString.t) (evs : list Event) (l : Loop) :
  validUrl id = false → run evs (start id) = Some l → l = start id.
Proof.
  intros Hid. unfold start, connect, create. cbn [clientId]. rewrite Hid. cbn [fst].
  induction evs as [|e evs IH]; simpl; [by intros [= <-]|].
  by destruct e as [[|i]|[|i]|[|i]|[|i]| |].
Qed.

End Sockets.

(** X11. What holds of the service at all times.  In every state the
    service can reach after its [connect]: at most one of its sockets is
    not closed; at most one reconnection is scheduled, and none while a
    socket is still connecting, open or closing; and the service keeps its
    client id.  When the [WebSocket] constructor accepts the URL, there is
    exactly one socket per call of [connect], and [this.ws] is [null] or
    the newest socket, so that [isConnected] and [sendMessage] never look
    at a stale one.  When it throws (a client id with a [#]), the first
    [connect] leaves no socket and it stays so ever after: no socket, no
    timer, no reconnection. *)
Theorem service_invariant
    (clientId : JsString.t)
    (evs : list WebSocketService.Event) (l : WebSocketService.Loop) :
  WebSocketService.run evs (WebSocketService.start clientId) = Some l →
  WebSocketService.Inv l
  ∧ WebSocketService.clientId (WebSocketService.service l) = clientId
  ∧ (WebSocketService.validUrl clientId = true →
     length (WebSocketService.sockets (WebSocketService.service l))
       = S (WebSocketService.reconnects l)
     ∧ (WebSocketService.ws (WebSocketService.service l) = None
        ∨ WebSocketService.ws (WebSocketService.service l)
          = Some (WebSocketService.reconnects l)))
  ∧ (WebSocketService.validUrl clientId = false →
     WebSocketService.sockets (WebSocketService.service l) = []
     ∧ WebSocketService.ws (WebSocketService.service l) = None
     ∧ WebSocketService.timers l = 0
     ∧ WebSocketService.reconnects l = 0).
Proof.
  intros Hrun. split; [by eapply run_Inv, start_Inv|].
  assert (WebSocketService.serves clientId (WebSocketService.start clientId)) as Hserves.
  { unfold WebSocketService.serves, WebSocketService.start.
    cbn [WebSocketService.service]. by rewrite connect_clientId. }
  split; [by eapply (run_serves clientId evs _ l Hrun)|]. split.
  - intros Hid. eapply run_newest; [|done|].
    + by rewrite Hserves.
    + unfold WebSocketService.newest, WebSocketService.start, WebSocketService.connect,
        WebSocketService.create. cbn [WebSocketService.clientId]. rewrite Hid.
      split; [done|by right].
  - intros Hid. rewrite (run_dead clientId evs l Hid Hrun).
    unfold WebSocketService.start, WebSocketService.connect, WebSocketService.create.
    cbn [WebSocketService.clientId]. by rewrite Hid.
Qed.

Lemma service_invariant_witness :
  length (WebSocketService.sockets (WebSocketService.service Trace.again)) = 7
  ∧ WebSocketService.ws (WebSocketService.service Trace.again) = Some 6
  ∧ WebSocketService.sockets
      (WebSocketService.service (WebSocketService.start Trace.badClient)) = [].
Proof.
  assert (WebSocketService.run (Trace.exhausting ++ Trace.recovering)
            (WebSocketService.start Trace.client)
          = Some Trace.again) as Hrun by (by vm_compute).
  pose proof (service_invariant _ _ _ Hrun) as (_ & _ & Hvalid & _).
  destruct (Hvalid ltac:(by vm_compute)) as [Hlen [Hws|Hws]].
  - discriminate Hws.
  - split; [exact Hlen|]. split; [exact Hws|].
    pose proof (service_invariant Trace.badClient [] _ eq_refl) as (_ & _ & _ & Hdead).
    by destruct (Hdead ltac:(by vm_compute)) as (Hs & _).
Defined.

(** X12. [disconnect] does not stop the reconnection.  When the service
    holds a socket that is connecting or open and the counter is below its
    bound, a call of [disconnect] sets [this.ws] to [null], so the service
    is no longer connected and [sendMessage] only logs; but the close
    event of that socket still reaches [attemptReconnect], which schedules
    a reconnection, and when the timer fires the service calls [connect]
    again: it opens a new socket and holds it in [this.ws] when the
    constructor accepts the URL, and is left without a socket when the
    constructor throws. *)
Theorem disconnect_then_reconnects
    (l : WebSocketService.Loop) (i : nat) (r : WebSocketService.ReadyState)
    (payload : JsValue) :
  WebSocketService.ws (WebSocketService.service l) = Some i →
  WebSocketService.sockets (WebSocketService.service l) !! i = Some r →
  r = WebSocketService.OPEN ∨ r = WebSocketService.CONNECTING →
  WebSocketService.reconnectAttempts (WebSocketService.service l)
    < WebSocketService.maxReconnectAttempts →
  ∃ closing final,
    WebSocketService.step WebSocketService.Disconnect l = Some closing
    ∧ WebSocketService.isConnected (WebSocketService.service closing) = false
    ∧ WebSocketService.sendMessage payload (WebSocketService.service closing)
      = [Console "WebSocket is not connected"]
    ∧ WebSocketService.run [WebSocketService.SocketClose i; WebSocketService.TimerFires]
        closing = Some final
    ∧ WebSocketService.reconnects final = S (WebSocketService.reconnects l)
    ∧ (WebSocketService.validUrl (WebSocketService.clientId (WebSocketService.service l))
       = true →
       WebSocketService.ws (WebSocketService.service final)
       = Some (length (WebSocketService.sockets (WebSocketService.service l)))
       ∧ WebSocketService.readyState (WebSocketService.service final)
         = Some WebSocketService.CONNECTING)
    ∧ (WebSocketService.validUrl (WebSocketService.clientId (WebSocketService.service l))
       = false →
       WebSocketService.ws (WebSocketService.service final) = None).
Proof.
  intros Hws Hi Hr Hlt. apply Nat.ltb_lt in Hlt.
  eexists _, _. split; [reflexivity|].
  unfold WebSocketService.disconnect. rewrite Hws.
  split; [done|]. split; [done|].
  assert (alter WebSocketService.close i
            (WebSocketService.sockets (WebSocketService.service l)) !! i
          = Some WebSocketService.CLOSING) as Hclosing.
  { rewrite list_lookup_alter_eq, Hi. by destruct Hr as [-> | ->]. }
  split.
  { cbn [WebSocketService.run WebSocketService.step WebSocketService.service
         WebSocketService.sockets].
    rewrite Hclosing.
    unfold WebSocketService.onclose, WebSocketService.attemptReconnect.
    cbn [WebSocketService.setSocket WebSocketService.reconnectAttempts].
    rewrite Hlt. reflexivity. }
  cbn [WebSocketService.reconnects WebSocketService.service].
  split; [done|]. split; intros Hid.
  - unfold WebSocketService.readyState, WebSocketService.connect.
    cbn [WebSocketService.clientId WebSocketService.setSocket]. rewrite Hid.
    cbn [fst WebSocketService.ws WebSocketService.sockets mbind option_bind].
    cbn [WebSocketService.setSocket WebSocketService.sockets].
    rewrite length_insert, length_alter. split; [done|].
    rewrite lookup_app_r by (rewrite length_insert, length_alter; lia).
    by rewrite length_insert, length_alter, Nat.sub_diag.
  - unfold WebSocketService.connect.
    cbn [WebSocketService.clientId WebSocketService.setSocket]. by rewrite Hid.
Qed.

Lemma disconnect_then_reconnects_witness :
  ∃ final,
    WebSocketService.run
      [ WebSocketService.SocketOpen 0; WebSocketService.Disconnect;
        WebSocketService.SocketClose 0; WebSocketService.TimerFires ]
      (WebSocketService.start Trace.client) = Some final
    ∧ WebSocketService.reconnects final = 1
    ∧ WebSocketService.ws (WebSocketService.service final) = Some 1.
Proof.
  pose proof (disconnect_then_reconnects
                (WebSocketService.mkLoop
                   (WebSocketService.mk Trace.client [WebSocketService.OPEN] (Some 0) 0) 0 0)
                0 WebSocketService.OPEN JsUndefined eq_refl eq_refl (or_introl eq_refl))
    as Hthm.
  destruct Hthm as (closing & final & Hstep & _ & _ & Hrun & Hcount & Hvalid & _).
  { unfold WebSocketService.maxReconnectAttempts. simpl. lia. }
  destruct (Hvalid ltac:(by vm_compute)) as [Hws _].
  exists final. split; [|split; [exact Hcount|exact Hws]].
  assert (WebSocketService.step (WebSocketService.SocketOpen 0)
            (WebSocketService.start Trace.client)
          = Some (WebSocketService.mkLoop
                    (WebSocketService.mk Trace.client [WebSocketService.OPEN] (Some 0) 0)
                    0 0)) as Hopen by (by vm_compute).
  change (WebSocketService.run
            (WebSocketService.SocketOpen 0
               :: WebSocketService.Disconnect
               :: [WebSocketService.SocketClose 0; WebSocketService.TimerFires])
            (WebSocketService.start Trace.client) = Some final).
  cbn [WebSocketService.run]. rewrite Hopen, Hstep. exact Hrun.
Defined.

(** ** FileUpload.tsx: the progress list is keyed by file name *)

Section Named.
Import FileUpload.

Lemma eqb_true (a b : JsString.t) : JsString.eqb a b = true ↔ a = b.
Proof. unfold JsString.eqb. apply bool_decide_eq_true. Qed.

(** Mapping the entries of one name makes all of them what [f] makes. *)
Lemma mapNamed_all n (f : UploadProgress → UploadProgress) (P : UploadProgress → Prop)
    (uploads : list UploadProgress) :
  (∀ u, P (f u)) →
  Forall (fun u => filename u = n → P u) (mapNamed n f uploads).
Proof.
  intros Hf. unfold mapNamed. apply Forall_fmap, Forall_forall. intros u _; simpl.
  destruct (JsString.eqb (filename u) n) eqn:E; [by intros _|].
  intros Hn. apply eqb_true in Hn. congruence.
Qed.

(** Mapping the entries of another name leaves those of [n] alone. *)
Lemma mapNamed_others n n' (f : UploadProgress → UploadProgress)
    (P : UploadProgress → Prop) (uploads : list UploadProgress) :
  n' ≠ n →
  (∀ u, filename (f u) = filename u) →
  Forall (fun u => filename u = n → P u) uploads →
  Forall (fun u => filename u = n → P u) (mapNamed n' f uploads).
Proof.
  intros Hne Hf Hall. unfold mapNamed. apply Forall_fmap.
  eapply Forall_impl; [exact Hall|]. intros u Hu; simpl.
  destruct (JsString.eqb (filename u) n') eqn:E; [|done].
  apply eqb_true in E. rewrite Hf. intros Hn. congruence.
Qed.

Lemma reports_others n n' (P : UploadProgress → Prop) (ps : list N)
    (uploads : list UploadProgress) :
  n' ≠ n →
  Forall (fun u => filename u = n → P u) uploads →
  Forall (fun u => filename u = n → P u)
         (foldl (fun uploads p => mapNamed n' (withProgress p) uploads) uploads ps).
Proof.
  intros Hne. revert uploads. induction ps as [|p ps IH]; intros uploads Hall; [done|].
  simpl. apply IH. by apply mapNamed_others.
Qed.

(** The turn of the file itself: every entry of its name ends as the
    upload ended. *)
Lemma onFile_own serve (file : File) uploads done :
  oversized file = false →
  Forall (fun u => filename u = name file → finished (outcome (serve file)) u)
         (onFile serve file (uploads, done)).1.
Proof.
  unfold onFile, oversized. intros ->.
  destruct (outcome (serve file)); cbn [fst]; by apply mapNamed_all.
Qed.

(** The turn of a file that is too large, or of another name. *)
Lemma onFile_other serve (file : File) n (P : UploadProgress → Prop) uploads done :
  oversized file = true ∨ name file ≠ n →
  Forall (fun u => filename u = n → P u) uploads →
  Forall (fun u => filename u = n → P u) (onFile serve file (uploads, done)).1.
Proof.
  unfold onFile, oversized. intros Hcase Hall.
  destruct (sizeLimit <? size file)%N; [done|].
  destruct Hcase as [|Hne]; [done|].
  assert (Forall (fun u => filename u = n → P u)
            (foldl (fun uploads p => mapNamed (name file) (withProgress p) uploads)
               (uploads ++ [mkProgress (name file) 0 uploading None])
               (reports (serve file)))) as Hmid.
  { apply reports_others; [done|]. apply Forall_app. split; [done|].
    constructor; [|constructor]. simpl. intros Hn. congruence. }
  destruct (outcome (serve file)); cbn [fst]; by apply mapNamed_others.
Qed.

Lemma onDrop_others serve (files : list File) n (P : UploadProgress → Prop) uploads done :
  Forall (fun g => oversized g = true ∨ name g ≠ n) files →
  Forall (fun u => filename u = n → P u) uploads →
  Forall (fun u => filename u = n → P u)
         (foldl (fun acc file => onFile serve file acc) (uploads, done) files).1.
Proof.
  revert uploads done. induction files as [|g files IH]; intros uploads done Hfiles Hall.
  - done.
  - inversion_clear Hfiles as [|? ? Hg Hrest]. cbn [foldl].
    pose proof (onFile_other serve g n P uploads done Hg Hall) as Hone.
    destruct (onFile serve g (uploads, done)) as [uploads1 done1].
    by apply IH.
Qed.

(** Every turn of the loop shows exactly one toast: the one of its file. *)
Lemma onFile_toast serve (file : File) uploads done :
  toasts (onFile serve file (uploads, done)).2 = toasts done ++ [toastFor serve file].
Proof.
  unfold onFile, toastFor, toasts, sizeLimit.
  destruct (50 * 1024 * 1024 <? size file)%N; cbn [snd].
  - by rewrite filter_app.
  - destruct (outcome (serve file)); cbn [snd]; by rewrite filter_app.
Qed.

Lemma onDrop_toasts serve (files : list File) uploads done :
  toasts (foldl (fun acc file => onFile serve file acc) (uploads, done) files).2
  = toasts done ++ (toastFor serve <$> files).
Proof.
  revert uploads done. induction files as [|g files IH]; intros uploads done.
  - simpl. by rewrite app_nil_r.
  - cbn [foldl]. pose proof (onFile_toast serve g uploads done) as Hone.
    destruct (onFile serve g (uploads, done)) as [uploads1 done1].
    cbn [snd] in Hone. rewrite IH, Hone, <- app_assoc. done.
Qed.

End Named.

(** X13. The progress list is keyed by file name.  When a dropped file
    within the size limit is the last of its name to be uploaded in the
    drop, every entry of the progress list that bears its name ends as that
    upload ended, and there is such an entry: completed at 100 when it
    succeeded; in error, with the message of the thrown [Error] or
    ["Upload failed"], when it threw.  This includes entries left by
    earlier files or earlier drops of the same name. *)
Theorem upload_status_by_name
    (serve : FileUpload.File → FileUpload.Transfer)
    (before behind : list FileUpload.File) (file : FileUpload.File)
    (uploads : list FileUpload.UploadProgress) :
  FileUpload.oversized file = false →
  Forall (fun g => FileUpload.oversized g = true ∨ FileUpload.name g ≠ FileUpload.name file)
         behind →
  let result := FileUpload.onDrop serve (before ++ file :: behind) uploads in
  Forall (fun u => FileUpload.filename u = FileUpload.name file →
                   FileUpload.finished (FileUpload.outcome (serve file)) u)
         (result.1)
  ∧ FileUpload.name file ∈ FileUpload.filename <$> (result.1).
Proof.
  intros Hfits Hbehind. cbv zeta. split.
  - unfold FileUpload.onDrop. rewrite foldl_app. cbn [foldl].
    destruct (foldl _ (uploads, []) before) as [uploads0 done0].
    pose proof (onFile_own serve file uploads0 done0 Hfits) as Hown.
    destruct (FileUpload.onFile serve file (uploads0, done0)) as [uploads1 done1].
    by apply onDrop_others.
  - unfold FileUpload.onDrop.
    destruct (onDrop_from serve (before ++ file :: behind) uploads []) as (-> & _).
    apply elem_of_app. right. apply list_elem_of_fmap. exists file. split; [done|].
    apply list_elem_of_filter. split; [done|].
    apply elem_of_app. right. by left.
Qed.

Lemma upload_status_by_name_witness :
  let serve := fun f : FileUpload.File =>
    if bool_decide (FileUpload.size f = 4096%N)
    then FileUpload.mkTransfer [30]%N (FileUpload.Throws None)
    else FileUpload.mkTransfer [50; 100]%N FileUpload.Succeeds in
  (FileUpload.onDrop serve [Sample.small; Sample.big; Sample.flaky] []).1
  = [ FileUpload.mkProgress (JsString.lit "notes.txt") 30 FileUpload.error
        (Some (JsString.lit "Upload failed"));
      FileUpload.mkProgress (JsString.lit "notes.txt") 30 FileUpload.error
        (Some (JsString.lit "Upload failed")) ]
  ∧ Forall (fun u => FileUpload.filename u = FileUpload.name Sample.flaky →
                     FileUpload.status u = FileUpload.error)
           (FileUpload.onDrop serve [Sample.small; Sample.big; Sample.flaky] []).1.
Proof.
  cbv zeta. split; [by vm_compute|].
  match goal with
  | |- Forall _ (FileUpload.onDrop ?serve _ _).1 =>
      pose proof (upload_status_by_name serve [Sample.small; Sample.big] []
                    Sample.flaky [] eq_refl (Forall_nil_2 _)) as [Hall _]
  end.
  eapply Forall_impl; [exact Hall|]. intros u Hu Hn. by destruct (Hu Hn).
Defined.

(** X14. One toast per dropped file.  The toasts [onDrop] shows are, in
    the order of the drop, one for each file: the size error naming the
    file when it is over the limit, the success toast naming it when its
    upload succeeded, the failure toast naming it when the upload threw.
    No file is passed over in silence and none is reported twice. *)
Theorem one_toast_per_file
    (serve : FileUpload.File → FileUpload.Transfer)
    (acceptedFiles : list FileUpload.File) (uploads : list FileUpload.UploadProgress) :
  FileUpload.toasts (FileUpload.onDrop serve acceptedFiles uploads).2
  = FileUpload.toastFor serve <$> acceptedFiles
  ∧ length (FileUpload.toasts (FileUpload.onDrop serve acceptedFiles uploads).2)
    = length acceptedFiles.
Proof.
  unfold FileUpload.onDrop. rewrite onDrop_toasts. split; [done|].
  simpl. by rewrite length_fmap.
Qed.

(** ** WebSocketService: the counter while connected *)

Section Counter.
Import WebSocketService.

Lemma step_open_counter (e : Event) (l l' : Loop) :
  step e l = Some l' → Inv l →
  (∀ i, sockets (service l) !! i = Some OPEN → reconnectAttempts (service l) = 0) →
  ∀ i, sockets (service l') !! i = Some OPEN → reconnectAttempts (service l') = 0.
Proof.
  intros Hstep HI Hzero i. unfold step in Hstep.
  destruct e as [j|j|j|j| |]; simpl in *.
  - destruct (sockets (service l) !! j) as [[]|]; by simplify_eq.
  - destruct (sockets (service l) !! j) as [[]|]; simplify_eq; apply Hzero.
  - destruct (sockets (service l) !! j) as [[]|]; simplify_eq; apply Hzero.
  - destruct (sockets (service l) !! j) as [r|] eqn:Hj; [|done].
    assert (live r ∧ sockets (service l') = <[j:=CLOSED]> (sockets (service l)))
      as [Hlr ->].
    { unfold onclose, attemptReconnect in Hstep. simpl in Hstep.
      destruct (reconnectAttempts (service l) <? maxReconnectAttempts);
        destruct r; simplify_eq; done. }
    intros Hi. by specialize (close_all_closed l j r HI Hj Hlr i _ Hi).
  - destruct (timers l) as [|pending] eqn:Ht; simplify_eq. cbn [service].
    destruct (inv_timers l HI) as [Ht1 _].
    assert (timers l = 1) as Hone by lia.
    intros Hi.
    destruct (connect_cases (service l)) as [(_ & Hs & _)|[_ Hs]]; rewrite Hs in Hi.
    + apply lookup_app_Some in Hi as [Hi|[_ Hi]].
      * by specialize (inv_idle l HI Hone _ _ Hi).
      * by apply list_lookup_singleton_Some in Hi as [_ ?].
    + by specialize (inv_idle l HI Hone _ _ Hi).
  - simplify_eq. unfold disconnect.
    destruct (ws (service l)) as [w|]; simpl; [|apply Hzero].
    intros Hi. destruct (decide (w = i)) as [->|Hne].
    + rewrite list_lookup_alter_eq in Hi.
      destruct (sockets (service l) !! i) as [[]|]; by simplify_eq/=.
    + rewrite list_lookup_alter_ne in Hi by done. by apply (Hzero i).
Qed.

Lemma run_open_counter (evs : list Event) (l l' : Loop) :
  run evs l = Some l' → Inv l →
  (∀ i, sockets (service l) !! i = Some OPEN → reconnectAttempts (service l) = 0) →
  ∀ i, sockets (service l') !! i = Some OPEN → reconnectAttempts (service l') = 0.
Proof.
  revert l. induction evs as [|e evs IH]; intros l Hrun HI Hzero; simpl in *.
  - by simplify_eq.
  - destruct (step e l) as [l1|] eqn:Hstep; [|done].
    eapply IH; [done|by eapply step_Inv|by eapply step_open_counter].
Qed.

End Counter.

(** X15. While it is connected, the service has all its attempts left.
    In every state the service can reach after its [connect], if one of its
    sockets is open then [reconnectAttempts] is 0 and no reconnection is
    scheduled: whatever failures came before, the next loss of the
    connection is followed by a first attempt, not by giving up. *)
Theorem connected_counter_is_zero
    (clientId : JsString.t)
    (evs : list WebSocketService.Event) (l : WebSocketService.Loop) (i : nat) :
  WebSocketService.run evs (WebSocketService.start clientId) = Some l →
  WebSocketService.sockets (WebSocketService.service l) !! i = Some WebSocketService.OPEN →
  WebSocketService.reconnectAttempts (WebSocketService.service l) = 0
  ∧ WebSocketService.timers l = 0
  ∧ ∃ closed,
      WebSocketService.step (WebSocketService.SocketClose i) l = Some closed
      ∧ WebSocketService.reconnectAttempts (WebSocketService.service closed) = 1
      ∧ WebSocketService.timers closed = 1.
Proof.
  intros Hrun Hi.
  pose proof (run_Inv _ _ _ Hrun (start_Inv clientId)) as HI.
  assert (WebSocketService.reconnectAttempts (WebSocketService.service l) = 0) as Hzero.
  { eapply (run_open_counter evs (WebSocketService.start clientId) l Hrun
              (start_Inv clientId)); [|done].
    unfold WebSocketService.start, WebSocketService.connect, WebSocketService.create.
    cbn [WebSocketService.clientId].
    destruct (WebSocketService.validUrl clientId); intros [|j]; by simpl. }
  assert (WebSocketService.timers l = 0) as Ht.
  { destruct (WebSocketService.inv_timers l HI) as [_ Hle]. lia. }
  split; [done|]. split; [done|].
  eexists. cbn [WebSocketService.step]. rewrite Hi.
  unfold WebSocketService.onclose, WebSocketService.attemptReconnect.
  cbn [WebSocketService.setSocket WebSocketService.reconnectAttempts].
  rewrite Hzero, Ht. cbn. done.
Qed.

Lemma connected_counter_is_zero_witness :
  ∃ l, WebSocketService.run (Trace.exhausting ++ [WebSocketService.TimerFires;
                                                   WebSocketService.SocketOpen 5])
         (WebSocketService.start Trace.client) = Some l
       ∧ WebSocketService.reconnectAttempts (WebSocketService.service l) = 0.
Proof.
  exists (WebSocketService.mkLoop
            (WebSocketService.mk Trace.client
               (replicate 5 WebSocketService.CLOSED ++ [WebSocketService.OPEN]) (Some 5) 0)
            0 5).
  assert (WebSocketService.run
            (Trace.exhausting ++ [WebSocketService.TimerFires; WebSocketService.SocketOpen 5])
            (WebSocketService.start Trace.client)
          = Some (WebSocketService.mkLoop
                    (WebSocketService.mk Trace.client
                       (replicate 5 WebSocketService.CLOSED ++ [WebSocketService.OPEN])
                       (Some 5) 0) 0 5)) as Hrun by (by vm_compute).
  split; [exact Hrun|].
  by apply (connected_counter_is_zero _ _ _ 5 Hrun).
Defined.
